(** * gubernator: Kubernetes peer discovery and statsd metrics

    A shallow embedding of [kubernetes.go] (the [K8sPool] peer discovery
    engine) and of the aggregation loop of the statsd metrics collector,
    together with the properties the specification states about them.

    Go code with effects is embedded in a small state-and-panic monad
    [Go]: a computation takes the current [World] and returns the new
    world together with a result, a panic, or the fact that it is still
    blocked.  Everything the code does that an outside observer can see
    (log lines, calls of the consumer callback, calls into the Kubernetes
    client) is appended to the world's trace in program order. *)

From Stdlib Require Import Ascii.
From stdpp Require Import gmap strings list fin_maps.

Open Scope string_scope.
Open Scope list_scope.
Open Scope Z_scope.

(** ** Go runtime: panics, channels, results *)

Inductive PanicKind :=
| NilDereference        (* invalid memory address or nil pointer dereference *)
| CloseOfNilChannel     (* close of nil channel *)
| CloseOfClosedChannel. (* close of closed channel *)

(** A [chan struct{}] that is only ever closed, never sent on. *)
Inductive Chan := ChanNil | ChanOpen | ChanClosed.

Inductive Res (A : Type) :=
| Ret (a : A)            (* the call returned [a] *)
| Panic (p : PanicKind)  (* the goroutine panicked *)
| Blocked.               (* the call has not returned yet *)
Arguments Ret {A} a.
Arguments Panic {A} p.
Arguments Blocked {A}.

Definition is_Ret {A} (r : Res A) : bool :=
  match r with Ret _ => true | _ => false end.

(** ** Kubernetes API objects, as far as the code reads them *)

Record ObjectMeta := { Namespace : string; Name : string }.

Record EndpointAddress := { IP : string }.

Record EndpointPort := { PortName : string; Port : Z }.

Record EndpointSubset := {
  Addresses : list EndpointAddress;
  Ports : list EndpointPort
}.

Record Endpoints := { Meta : ObjectMeta; Subsets : list EndpointSubset }.

(** The dynamic values ([interface{}]) an informer store and its event
    handlers deal with: a [*v1.Endpoints], some other API object with
    metadata, or the tombstone [cache.DeletedFinalStateUnknown] that a
    delete notification carries when the final state was missed. *)
Inductive Object :=
| ObjEndpoints (ep : Endpoints)
| ObjOther (ty : string) (meta : ObjectMeta)
| ObjTombstone (key : string) (last : Object).

(** [reflect.TypeOf(obj).String()] *)
Definition TypeOf (obj : Object) : string :=
  match obj with
  | ObjEndpoints _ => "*v1.Endpoints"
  | ObjOther ty _ => ty
  | ObjTombstone _ _ => "cache.DeletedFinalStateUnknown"
  end.

(** The type assertion of [obj] to a pointer to [api_v1.Endpoints]: the
    pointer and [ok];
    when [ok] is false the pointer is nil. *)
Definition assertEndpoints (obj : Object) : option Endpoints * bool :=
  match obj with
  | ObjEndpoints ep => (Some ep, true)
  | _ => (None, false)
  end.

Definition isEndpoints (obj : Object) : bool := (assertEndpoints obj).2.

(** Modelled from the spec: [PeerInfo] is declared outside the files
    at hand; the spec gives it as [{address: host:port string, isOwner:
    bool}], and these are the two fields [updatePeers] sets. *)
Record PeerInfo := { Address : string; IsOwner : bool }.

(** [K8sPoolConfig].  The [OnUpdate] callback is not a field here: calling
    it is recorded in the trace as [CallOnUpdate]. *)
Record K8sPoolConfig := {
  ConfNamespace : string;
  Selector : string;
  PodIP : string;
  PodPort : string;
  Enabled : bool
}.

Definition withEnabled (b : bool) (c : K8sPoolConfig) : K8sPoolConfig :=
  {| ConfNamespace := ConfNamespace c; Selector := Selector c;
     PodIP := PodIP c; PodPort := PodPort c; Enabled := b |}.

(** [K8sPool]: the configuration; the [done] channel and the informer's
    store live in the [World]. *)
Record K8sPool := { conf : K8sPoolConfig }.

(** ** Observable effects *)

Inductive LogMsg :=
| MsgQueue (kind key : string) (err : option string)
    (* "Queue (<kind>) '<key>' - <err>" *)
| MsgKeyFunc (err : string)
    (* "while calling MetaNamespaceKeyFunc(): <err>" *)
| MsgFetching
    (* "Fetching peer list from endpoints API" *)
| MsgExpectedType (ty : string)
    (* "expected type v1.Endpoints got '<ty>' instead" *)
| MsgPeer (p : PeerInfo).
    (* "Peer: <p>" *)

Inductive Effect :=
| LogDebug (m : LogMsg)
| LogError (m : LogMsg)
| CallOnUpdate (peers : list PeerInfo)     (* e.conf.OnUpdate(peers) *)
| CallInClusterConfig                      (* rest.InClusterConfig() *)
| CallNewForConfig                         (* kubernetes.NewForConfig(config) *)
| NewSharedIndexInformer (ns sel : string) (* list/watch on Endpoints *)
| AddEventHandler
| GoInformerRun.                           (* go e.informer.Run(e.done) *)

Record World := {
  trace : list Effect;   (* oldest first *)
  done : Chan;           (* e.done *)
  store : list Object    (* what e.informer.GetStore().List() returns now *)
}.

Definition emit (fx : list Effect) (w : World) : World :=
  {| trace := trace w ++ fx; done := done w; store := store w |}.

Definition setDone (c : Chan) (w : World) : World :=
  {| trace := trace w; done := c; store := store w |}.

(** The lists the consumer callback was called with, oldest first. *)
Fixpoint onUpdateCalls (fx : list Effect) : list (list PeerInfo) :=
  match fx with
  | [] => []
  | CallOnUpdate peers :: fx' => peers :: onUpdateCalls fx'
  | _ :: fx' => onUpdateCalls fx'
  end.

(** ** The monad *)

Definition Go (A : Type) : Type := World → World * Res A.

Definition run {A} (m : Go A) (w : World) : World * Res A := m w.

Global Instance Go_ret : MRet Go := λ A a w, (w, Ret a).

Global Instance Go_bind : MBind Go := λ A B f m w,
  match m w with
  | (w', Ret a) => f a w'
  | (w', Panic p) => (w', Panic p)
  | (w', Blocked) => (w', Blocked)
  end.

Definition effect (fx : Effect) : Go unit := λ w, (emit [fx] w, Ret tt).
Definition panic {A} (p : PanicKind) : Go A := λ w, (w, Panic p).
Definition block {A} : Go A := λ w, (w, Blocked).
Definition getDone : Go Chan := λ w, (w, Ret (done w)).
Definition putDone (c : Chan) : Go unit := λ w, (setDone c w, Ret tt).
Definition storeList : Go (list Object) := λ w, (w, Ret (store w)).

(** [for _, x := range l { acc = body(acc, x) }] *)
Fixpoint forRange {A B} (body : B → A → Go B) (l : list A) (acc : B) : Go B :=
  match l with
  | [] => mret acc
  | x :: l' => acc' ← body acc x; forRange body l' acc'
  end.

(** Dereferencing a pointer that may be nil. *)
Definition deref {A} (p : option A) : Go A :=
  match p with
  | Some a => mret a
  | None => panic NilDereference
  end.

(** The built-in [close(ch)] applied to [e.done]. *)
Definition closeDone : Go unit :=
  c ← getDone;
  match c with
  | ChanNil => panic CloseOfNilChannel
  | ChanClosed => panic CloseOfClosedChannel
  | ChanOpen => putDone ChanClosed
  end.

(** ** kubernetes.go *)

(** The entry [updatePeers] builds for one address:
    [PeerInfo{Address: fmt.Sprintf("%s:%s", addr.IP, e.conf.PodPort)}],
    with [IsOwner] set when [addr.IP == e.conf.PodIP]. *)
Definition mkPeer (c : K8sPoolConfig) (addr : EndpointAddress) : PeerInfo :=
  let peer := {| Address := IP addr +:+ ":" +:+ PodPort c; IsOwner := false |} in
  if bool_decide (IP addr = PodIP c)
  then {| Address := Address peer; IsOwner := true |}
  else peer.

(** The three nested loops of [updatePeers], innermost first; each body
    takes the slice [peers] built so far and returns the extended one. *)
Definition addrBody (e : K8sPool) (peers : list PeerInfo) (addr : EndpointAddress)
  : Go (list PeerInfo) :=
  let peer := mkPeer (conf e) addr in
  let peers := peers ++ [peer] in
  effect (LogDebug (MsgPeer peer));;
  mret peers.

Definition subsetBody (e : K8sPool) (peers : list PeerInfo) (s : EndpointSubset)
  : Go (list PeerInfo) :=
  forRange (addrBody e) (Addresses s) peers.

(** There is no [continue] after the error is logged: the loop over
    [endpoint.Subsets] is reached with the nil pointer. *)
Definition objBody (e : K8sPool) (peers : list PeerInfo) (obj : Object)
  : Go (list PeerInfo) :=
  let '(endpoint, ok) := assertEndpoints obj in
  (if negb ok then effect (LogError (MsgExpectedType (TypeOf obj)))
   else mret tt);;
  ep ← deref endpoint;
  forRange (subsetBody e) (Subsets ep) peers.

Definition updatePeers (e : K8sPool) : Go unit :=
  effect (LogDebug MsgFetching);;
  objs ← storeList;
  peers ← forRange (objBody e) objs [];
  effect (CallOnUpdate peers).

(** [Close] *)
Definition Close (e : K8sPool) : Go unit := closeDone.

(** The notifications the informer delivers to its handlers. *)
Inductive Event :=
| EvAdd (obj : Object)
| EvUpdate (obj new : Object)
| EvDelete (obj : Object).

Definition isUpdateOrDelete (ev : Event) : bool :=
  match ev with
  | EvAdd _ => false
  | EvUpdate _ _ | EvDelete _ => true
  end.

(** The object a handler derives its key from. *)
Definition keyedObject (ev : Event) : Object :=
  match ev with
  | EvAdd obj | EvUpdate obj _ | EvDelete obj => obj
  end.

Section Handlers.

(** [cache.MetaNamespaceKeyFunc] belongs to the Kubernetes client
    library; the handlers are embedded over any function of its type,
    [(key, err)] with [err = None] for Go's nil error. *)
Variable MetaNamespaceKeyFunc : Object → string * option string.

Definition UpdateFunc (e : K8sPool) (obj new : Object) : Go unit :=
  let '(key, err) := MetaNamespaceKeyFunc obj in
  effect (LogDebug (MsgQueue "Update" key err));;
  match err with
  | Some msg => effect (LogError (MsgKeyFunc msg))
  | None => updatePeers e
  end.

Definition DeleteFunc (e : K8sPool) (obj : Object) : Go unit :=
  let '(key, err) := MetaNamespaceKeyFunc obj in
  effect (LogDebug (MsgQueue "Delete" key err));;
  match err with
  | Some msg => effect (LogError (MsgKeyFunc msg))
  | None => updatePeers e
  end.

(** [cache.ResourceEventHandlerFuncs] with [UpdateFunc] and [DeleteFunc]
    set and [AddFunc] left nil (it is commented out in [start]): an add
    notification reaches no code of the pool. *)
Definition OnEvent (e : K8sPool) (ev : Event) : Go unit :=
  match ev with
  | EvAdd _ => mret tt
  | EvUpdate obj new => UpdateFunc e obj new
  | EvDelete obj => DeleteFunc e obj
  end.

(** An update or delete notification whose key can be derived. *)
Definition qualifying (ev : Event) : bool :=
  isUpdateOrDelete ev &&
  bool_decide ((MetaNamespaceKeyFunc (keyedObject ev)).2 = None).

End Handlers.

(** The key function of the client library on the objects above:
    [namespace/name], or [name] alone when the namespace is empty; a
    tombstone carries no metadata and gives an error. *)
Definition metaNamespaceKey (obj : Object) : string * option string :=
  let key (m : ObjectMeta) :=
    if bool_decide (Namespace m = "") then Name m
    else Namespace m +:+ "/" +:+ Name m in
  match obj with
  | ObjEndpoints ep => (key (Meta ep), None)
  | ObjOther _ m => (key m, None)
  | ObjTombstone _ _ =>
      ("", Some "object has no meta: object does not implement the Object interfaces")
  end.

(** What the outside world answers while a pool is constructed. *)
Record Env := {
  InClusterConfig : option string;  (* the error of rest.InClusterConfig() *)
  NewForConfig : option string;     (* the error of kubernetes.NewForConfig() *)
  HasSynced : nat → bool            (* e.informer.HasSynced() at the n-th poll *)
}.

(** [cache.WaitForCacheSync(stopCh, hasSynced)] of the client library: it
    polls [hasSynced] at a fixed period until it answers true (result
    true) or [stopCh] is closed (result false).  It takes no duration:
    nothing else ends the wait.  [polls] is the number of polls the
    caller is observed for; when they are used up the call is still
    blocked. *)
Fixpoint WaitForCacheSync (polls : nat) (hasSynced : nat → bool) (tick : nat)
  : Go bool :=
  stopCh ← getDone;
  match stopCh with
  | ChanClosed => mret false
  | ChanNil | ChanOpen =>
      match polls with
      | O => block
      | S polls' =>
          if hasSynced tick then mret true
          else WaitForCacheSync polls' hasSynced (S tick)
      end
  end.

Definition errSyncTimeout : string := "timed out waiting for caches to sync".

Definition start (polls : nat) (env : Env) (e : K8sPool) : Go (option string) :=
  effect (NewSharedIndexInformer (ConfNamespace (conf e)) (Selector (conf e)));;
  effect AddEventHandler;;
  effect GoInformerRun;;
  synced ← WaitForCacheSync polls (HasSynced env) 0;
  if negb synced then
    closeDone;;
    mret (Some errSyncTimeout)
  else mret None.

Definition NewK8sPool (polls : nat) (env : Env) (c : K8sPoolConfig)
  : Go (option K8sPool * option string) :=
  effect CallInClusterConfig;;
  match InClusterConfig env with
  | Some err => mret (None, Some ("during InClusterConfig(): " +:+ err))
  | None =>
      effect CallNewForConfig;;
      match NewForConfig env with
      | Some err => mret (None, Some ("during NewForConfig(): " +:+ err))
      | None =>
          putDone ChanOpen;;
          let pool := {| conf := c |} in
          err ← start polls env pool;
          mret (Some pool, err)
      end
  end.

(** A process before any pool exists. *)
Definition world0 (objs : list Object) : World :=
  {| trace := []; done := ChanNil; store := objs |}.

Definition epA : Endpoints :=
  {| Meta := {| Namespace := "default"; Name := "A" |};
     Subsets := [ {| Addresses := [ {| IP := "10.0.0.1" |} ];
                     Ports := [ {| PortName := "grpc"; Port := 81 |} ] |} ] |}.
Definition epB : Endpoints :=
  {| Meta := {| Namespace := "default"; Name := "B" |};
     Subsets := [ {| Addresses := [ {| IP := "10.0.0.2" |} ];
                     Ports := [ {| PortName := "grpc"; Port := 81 |} ] |} ] |}.
Definition confB : K8sPoolConfig :=
  {| ConfNamespace := "default"; Selector := "app=gubernator";
     PodIP := "10.0.0.2"; PodPort := "8080"; Enabled := true |}.
Definition poolB : K8sPool := {| conf := confB |}.
Definition envOk : Env :=
  {| InClusterConfig := None; NewForConfig := None; HasSynced := λ _, true |}.
Definition envNeverSynced : Env :=
  {| InClusterConfig := None; NewForConfig := None; HasSynced := λ _, false |}.

(** ** The statsd metrics collector: the loop of [StatsdMetrics.Start] *)

(** Modelled from the spec: [RequestStats] is declared outside the files
    at hand; the spec gives a per-call record [{methodIdentity, duration,
    failed}], and [Start] also reads and writes the counter [Called].
    [Duration] is a [time.Duration] and the two counters are [int64]:
    all three are 64-bit signed integers. *)
Record RequestStats := {
  Method : string;
  Duration : Z;
  Failed : Z;
  Called : Z
}.

Definition wrap64 (z : Z) : Z := (z + 2 ^ 63) `mod` 2 ^ 64 - 2 ^ 63.

Definition setCalled (n : Z) (s : RequestStats) : RequestStats :=
  {| Method := Method s; Duration := Duration s; Failed := Failed s; Called := n |}.
Definition setFailed (n : Z) (s : RequestStats) : RequestStats :=
  {| Method := Method s; Duration := Duration s; Failed := n; Called := Called s |}.
Definition setDuration (d : Z) (s : RequestStats) : RequestStats :=
  {| Method := Method s; Duration := d; Failed := Failed s; Called := Called s |}.

(** The calls made on the [StatsdClient]. *)
Inductive StatsdCall :=
| Gauge (name : string) (value : Z)
| Inc (name : string) (value : Z)
| ClientClose.

(** What [sd.cacheStats.Stats(true)] returns. *)
Record CacheStats := { Size : Z; Hit : Z; Miss : Z }.

(** What the [select] of the loop receives: a stat from [sd.reqChan], a
    tick (with the statistics of the registered cache, if one is
    registered), or the closing of [done]. *)
Inductive LoopEvent :=
| RecvStat (stat : RequestStats)
| Tick (cacheStats : option CacheStats)
| Done.

(** [strings.LastIndex(k, "/")]: the index of the last slash, or -1. *)
Fixpoint LastIndexSlash (k : string) (i : Z) (found : Z) : Z :=
  match k with
  | EmptyString => found
  | String c k' =>
      LastIndexSlash k' (i + 1) (if bool_decide (c = "/"%char) then i else found)
  end.

(** [k[n:]] *)
Fixpoint sliceFrom (n : nat) (k : string) : string :=
  match n, k with
  | O, _ => k
  | S n', String _ k' => sliceFrom n' k'
  | S _, EmptyString => EmptyString
  end.

Definition methodName (k : string) : string :=
  sliceFrom (Z.to_nat (LastIndexSlash k 0 (-1) + 1)) k.

(** The local variable [item] at the end of the branch for a method that
    is already in the map (it starts as a copy of the map's value). *)
Definition bumped (item stat : RequestStats) : RequestStats :=
  let item := setFailed (wrap64 (Failed item + Failed stat)) item in
  let item := setCalled (wrap64 (Called item + 1)) item in
  if bool_decide (Duration item > Duration stat)
  then setDuration (Duration stat) item
  else item.

Record Loop := {
  methods : gmap string RequestStats;  (* the per-interval aggregation map *)
  sent : list StatsdCall               (* calls on sd.client, oldest first *)
}.

(** The three calls of one iteration of [for k, v := range methods]. *)
Definition emitMethod (kv : string * RequestStats) : list StatsdCall :=
  let method := methodName kv.1 in
  [ Gauge ("api." +:+ method +:+ ".duration") (Duration kv.2);
    Inc ("api." +:+ method +:+ ".total") (Called kv.2);
    Inc ("api." +:+ method +:+ ".failed") (Failed kv.2) ].

Definition emitCache (cacheStats : option CacheStats) : list StatsdCall :=
  match cacheStats with
  | Some stats =>
      [ Inc "cache.size" (Size stats); Inc "cache.hit" (Hit stats);
        Inc "cache.miss" (Miss stats) ]
  | None => []
  end.

(** The function handed to [sd.wg.Until]: the new state and whether the
    loop goes on.  Go ranges over a map in no fixed order; [map_to_list]
    stands for the order of one run. *)
Definition loopBody (st : Loop) (ev : LoopEvent) : Loop * bool :=
  match ev with
  | RecvStat stat =>
      match methods st !! Method stat with
      | Some item =>
          let item := bumped item stat in
          (st, true)
      | None =>
          let stat := setCalled 1 stat in
          ({| methods := <[Method stat := stat]> (methods st); sent := sent st |},
           true)
      end
  | Tick cacheStats =>
      ({| methods := ∅;
          sent := sent st ++ (map_to_list (methods st) ≫= emitMethod)
                          ++ emitCache cacheStats |},
       true)
  | Done =>
      ({| methods := methods st; sent := sent st ++ [ClientClose] |}, false)
  end.

(** [holster.WaitGroup.Until]: call the function until it returns false. *)
Fixpoint Until (evs : list LoopEvent) (st : Loop) : Loop :=
  match evs with
  | [] => st
  | ev :: evs' =>
      let '(st', continue) := loopBody st ev in
      if continue then Until evs' st' else st'
  end.

(** [Start]: a fresh map, then the loop. *)
Definition Start (evs : list LoopEvent) : Loop :=
  Until evs {| methods := ∅; sent := [] |}.

(** The first stat of a sequence that names the method [m]. *)
Definition firstStat (m : string) (stats : list RequestStats) : option RequestStats :=
  head (filter (λ s, Method s = m) stats).

Definition statA1 : RequestStats :=
  {| Method := "/pb.gubernator.V1/GetRateLimits"; Duration := 500; Failed := 0; Called := 0 |}.
Definition statA2 : RequestStats :=
  {| Method := "/pb.gubernator.V1/GetRateLimits"; Duration := 200; Failed := 1; Called := 0 |}.
Definition statB1 : RequestStats :=
  {| Method := "/pb.gubernator.V1/HealthCheck"; Duration := 30; Failed := 1; Called := 7 |}.

(** ** The peer list as a function of what the store lists *)

Definition peersOfEndpoints (c : K8sPoolConfig) (ep : Endpoints) : list PeerInfo :=
  s ← Subsets ep; mkPeer c <$> Addresses s.

(** One entry per address of every [*v1.Endpoints], in listing order;
    other objects contribute nothing. *)
Definition peerList (c : K8sPoolConfig) (objs : list Object) : list PeerInfo :=
  obj ← objs;
  match obj with
  | ObjEndpoints ep => peersOfEndpoints c ep
  | _ => []
  end.

Definition peerLogs (c : K8sPoolConfig) (objs : list Object) : list Effect :=
  (λ p, LogDebug (MsgPeer p)) <$> peerList c objs.

(** The informer's store is a map from key to object, and [List()]
    ranges over that map: it returns the values in some order. *)
Definition isListing (snapshot : gmap string Object) (objs : list Object) : Prop :=
  objs ≡ₚ (map_to_list snapshot).*2.


(** The word a handler logs for its notification. *)
Definition eventKind (ev : Event) : string :=
  match ev with
  | EvAdd _ => "Add"
  | EvUpdate _ _ => "Update"
  | EvDelete _ => "Delete"
  end.

(** The total number of addresses in the records listed. *)
Definition countAddresses (objs : list Object) : nat :=
  sum_list ((λ obj,
    match obj with
    | ObjEndpoints ep => sum_list ((λ s, length (Addresses s)) <$> Subsets ep)
    | _ => O
    end) <$> objs).

(** A result of [NewK8sPool] with the pool's [Enabled] flag replaced. *)
Definition resWithEnabled (b : bool) (r : Res (option K8sPool * option string))
  : Res (option K8sPool * option string) :=
  match r with
  | Ret (pool, err) =>
      Ret ((λ e, {| conf := withEnabled b (conf e) |}) <$> pool, err)
  | Panic p => Panic p
  | Blocked => Blocked
  end.

Definition wellFormed (objs : list Object) : Prop :=
  Forall (λ obj, isEndpoints obj = true) objs.

(** The effects a computation adds to the trace of [w], and the calls of
    the consumer callback that handling one notification makes. *)
Definition newEffects {A} (m : Go A) (w : World) : list Effect :=
  drop (length (trace w)) (trace (run m w).1).

Definition callbacks (keyFunc : Object → string * option string)
    (e : K8sPool) (ev : Event) (w : World) : list (list PeerInfo) :=
  onUpdateCalls (newEffects (OnEvent keyFunc e ev) w).

(** Sample objects and worlds. *)
Definition podX : Object :=
  ObjOther "*v1.Pod" {| Namespace := "default"; Name := "x" |}.
Definition tombA : Object := ObjTombstone "default/A" (ObjEndpoints epA).
Definition snapshotAB : gmap string Object :=
  {[ "default/A" := ObjEndpoints epA; "default/B" := ObjEndpoints epB ]}.
Definition peerA : PeerInfo := {| Address := "10.0.0.1:8080"; IsOwner := false |}.
Definition peerB : PeerInfo := {| Address := "10.0.0.2:8080"; IsOwner := true |}.
Definition worldAB : World := world0 [ObjEndpoints epA; ObjEndpoints epB].
Definition worldBA : World := world0 [ObjEndpoints epB; ObjEndpoints epA].
Definition startFx (c : K8sPoolConfig) : list Effect :=
  [NewSharedIndexInformer (ConfNamespace c) (Selector c); AddEventHandler; GoInformerRun].

(** What receiving one stat does to the aggregation map. *)
Definition aggregate (m : gmap string RequestStats) (stat : RequestStats)
  : gmap string RequestStats :=
  methods (loopBody {| methods := m; sent := [] |} (RecvStat stat)).1.

(** The same process with another content of the store. *)
Definition setStore (objs : list Object) (w : World) : World :=
  {| trace := trace w; done := done w; store := objs |}.

(** ** The statsd metrics collector: [TagRPC] and [HandleRPC] *)

(** [stats.RPCStats] of the gRPC library.  [HandleRPC] has a case for
    [*stats.End] only; of an End it reads [t.EndTime.Sub(t.BeginTime)],
    carried here as [elapsed], and [t.Error] (as [err]). *)
Inductive RPCStats :=
| RPCBegin
| RPCInPayload
| RPCInHeader
| RPCInTrailer
| RPCOutPayload
| RPCOutHeader
| RPCOutTrailer
| RPCEnd (elapsed : Z) (err : option string).

(** [StatsdMetrics], as far as [HandleRPC] uses it: [reqChan] is nil
    ([None]) until [Start] makes it, and then holds the stats sent and
    not yet received, oldest first. *)
Record StatsdMetrics := { reqChan : option (list RequestStats) }.

(** [NewStatsdMetrics] sets the client and the logger and leaves
    [reqChan] nil. *)
Definition NewStatsdMetrics : StatsdMetrics := {| reqChan := None |}.

(** The first statement of [Start]:
    [sd.reqChan = make(chan *RequestStats, 10000)]. *)
Definition reqChanCap : Z := 10000.
Definition makeReqChan (sd : StatsdMetrics) : StatsdMetrics := {| reqChan := Some [] |}.

(** [sd.reqChan <- rs]: a send on a nil channel never proceeds, a send
    on a full one waits for a receiver. *)
Definition send (rs : RequestStats) (sd : StatsdMetrics) : StatsdMetrics * Res unit :=
  match reqChan sd with
  | None => (sd, Blocked)
  | Some buf =>
      if decide (Z.of_nat (length buf) < reqChanCap)
      then ({| reqChan := Some (buf ++ [rs]) |}, Ret tt)
      else (sd, Blocked)
  end.

(** [TagRPC] attaches [&RequestStats{Method: tagInfo.FullMethodName}] to
    the context; the other fields have their zero values. *)
Definition TagRPC (FullMethodName : string) : RequestStats :=
  {| Method := FullMethodName; Duration := 0; Failed := 0; Called := 0 |}.

(** [HandleRPC]; [rs] is what [StatsFromContext(ctx)] returns, [None]
    for nil. *)
Definition HandleRPC (sd : StatsdMetrics) (rs : option RequestStats) (s : RPCStats)
  : StatsdMetrics * Res unit :=
  match rs with
  | None => (sd, Ret tt)
  | Some rs =>
      match s with
      | RPCEnd elapsed err =>
          let rs := setDuration elapsed rs in
          let rs := if err is Some _ then setFailed 1 rs else rs in
          send rs sd
      | _ => (sd, Ret tt)
      end
  end.

(** Whether a string has a slash, and the position of its last one. *)
Fixpoint hasSlash (k : string) : bool :=
  match k with
  | EmptyString => false
  | String c k' => bool_decide (c = "/"%char) || hasSlash k'
  end.

Fixpoint lastSlash (k : string) : option nat :=
  match k with
  | EmptyString => None
  | String c k' =>
      match lastSlash k' with
      | Some j => Some (S j)
      | None => if bool_decide (c = "/"%char) then Some O else None
      end
  end.

(** The loop keeps every entry under the method it names, with the call
    count 1. *)
Definition entriesCounted (m : gmap string RequestStats) : Prop :=
  ∀ k item, m !! k = Some item → Method item = k ∧ Called item = 1.

(** The entries [updatePeers] appends for one endpoint record, written
    out: subsets in order, addresses in order. *)
Definition entriesOf (c : K8sPoolConfig) (ep : Endpoints) : list PeerInfo :=
  s ← Subsets ep;
  (λ addr, {| Address := IP addr +:+ ":" +:+ PodPort c;
              IsOwner := bool_decide (IP addr = PodIP c) |}) <$> Addresses s.

(** The events of one interval of the metrics loop: the stats received,
    then the tick that ends it. *)
Definition intervalEvents (iv : list RequestStats * option CacheStats)
  : list LoopEvent :=
  (RecvStat <$> iv.1) ++ [Tick iv.2].

(** * Properties *)

(** ** The monad and the loops *)

Lemma emit_nil w : emit [] w = w.
Proof. destruct w; unfold emit; simpl. by rewrite app_nil_r. Qed.

Lemma emit_emit fx1 fx2 w : emit fx2 (emit fx1 w) = emit (fx1 ++ fx2) w.
Proof. unfold emit; simpl. by rewrite app_assoc. Qed.

Lemma run_bind {A B} (m : Go A) (f : A → Go B) w :
  (m ≫= f) w =
  match m w with
  | (w', Ret a) => f a w'
  | (w', Panic p) => (w', Panic p)
  | (w', Blocked) => (w', Blocked)
  end.
Proof. reflexivity. Qed.

Lemma forRange_app {A B} (body : B → A → Go B) l1 l2 acc w :
  forRange body (l1 ++ l2) acc w =
  (acc' ← forRange body l1 acc; forRange body l2 acc') w.
Proof.
  revert acc w. induction l1 as [|x l1 IH]; intros acc w; [done|].
  simpl. rewrite !run_bind. destruct (body acc x w) as [w' [acc'| |]]; [|done..].
  by rewrite IH.
Qed.

(** Run the straight-line part of a computation. *)
Ltac go_step :=
  repeat first
    [ rewrite run_bind
    | progress unfold mret, Go_ret, effect, storeList, getDone, putDone,
        deref, panic, block
    | progress simpl ].

Section UpdatePeers.
Variable e : K8sPool.

Lemma range_addresses addrs peers w :
  forRange (addrBody e) addrs peers w =
  (emit ((λ p, LogDebug (MsgPeer p)) <$> (mkPeer (conf e) <$> addrs)) w,
   Ret (peers ++ (mkPeer (conf e) <$> addrs))).
Proof.
  revert peers w. induction addrs as [|a addrs IH]; intros peers w; simpl.
  - by rewrite emit_nil, app_nil_r.
  - rewrite run_bind. unfold addrBody at 1. simpl.
    rewrite IH, emit_emit. by rewrite <- app_assoc.
Qed.

Lemma range_subsets subsets peers w :
  forRange (subsetBody e) subsets peers w =
  (emit ((λ p, LogDebug (MsgPeer p)) <$> (s ← subsets; mkPeer (conf e) <$> Addresses s)) w,
   Ret (peers ++ (s ← subsets; mkPeer (conf e) <$> Addresses s))).
Proof.
  revert peers w. induction subsets as [|s subsets IH]; intros peers w; simpl.
  - by rewrite emit_nil, app_nil_r.
  - rewrite run_bind. unfold subsetBody at 1. rewrite range_addresses.
    rewrite IH, emit_emit, fmap_app. by rewrite <- app_assoc.
Qed.

(** Ranging over records that all are [*v1.Endpoints]. *)
Lemma range_objects objs peers w :
  wellFormed objs →
  forRange (objBody e) objs peers w =
  (emit (peerLogs (conf e) objs) w, Ret (peers ++ peerList (conf e) objs)).
Proof.
  intros Hwf. revert peers w.
  induction Hwf as [|obj objs Hobj _ IH]; intros peers w; simpl.
  - by rewrite emit_nil, app_nil_r.
  - destruct obj as [ep| |]; try discriminate Hobj.
    rewrite run_bind. unfold objBody at 1. go_step. rewrite range_subsets.
    rewrite IH, emit_emit. unfold peerLogs, peerList. simpl.
    rewrite fmap_app. by rewrite <- app_assoc.
Qed.

(** Reaching a record of another type: the error is logged and the
    nil pointer is dereferenced. *)
Lemma range_objects_malformed good bad rest peers w :
  wellFormed good →
  isEndpoints bad = false →
  forRange (objBody e) (good ++ bad :: rest) peers w =
  (emit (peerLogs (conf e) good ++ [LogError (MsgExpectedType (TypeOf bad))]) w,
   Panic NilDereference).
Proof.
  intros Hgood Hbad. rewrite forRange_app, run_bind, range_objects by done.
  simpl. rewrite run_bind. unfold objBody at 1.
  destruct bad as [ep| |]; try discriminate Hbad; go_step;
    by rewrite emit_emit.
Qed.

Lemma updatePeers_wellformed w :
  wellFormed (store w) →
  run (updatePeers e) w =
  (emit ([LogDebug MsgFetching] ++ peerLogs (conf e) (store w)
         ++ [CallOnUpdate (peerList (conf e) (store w))]) w,
   Ret tt).
Proof.
  intros Hwf. unfold run, updatePeers.
  rewrite run_bind. unfold effect at 1. simpl.
  rewrite run_bind. unfold storeList at 1. simpl.
  rewrite run_bind.
  rewrite range_objects by done. simpl.
  unfold effect. by rewrite !emit_emit.
Qed.

Lemma updatePeers_malformed good bad rest w :
  store w = good ++ bad :: rest →
  wellFormed good →
  isEndpoints bad = false →
  run (updatePeers e) w =
  (emit ([LogDebug MsgFetching] ++ peerLogs (conf e) good
         ++ [LogError (MsgExpectedType (TypeOf bad))]) w,
   Panic NilDereference).
Proof.
  intros Hstore Hgood Hbad. unfold run, updatePeers.
  rewrite run_bind. unfold effect at 1. simpl.
  rewrite run_bind. unfold storeList at 1. simpl.
  rewrite run_bind.
  rewrite Hstore.
  rewrite range_objects_malformed by done. by rewrite emit_emit.
Qed.

End UpdatePeers.

(** ** The event handlers *)

Lemma onUpdateCalls_app fx1 fx2 :
  onUpdateCalls (fx1 ++ fx2) = onUpdateCalls fx1 ++ onUpdateCalls fx2.
Proof.
  induction fx1 as [|x fx1 IH]; [done|].
  destruct x; simpl; by rewrite IH.
Qed.

Lemma onUpdateCalls_peerLogs c objs : onUpdateCalls (peerLogs c objs) = [].
Proof. unfold peerLogs. by induction (peerList c objs). Qed.

(** Every listing is well-formed or has a first record of another type. *)
Lemma wellFormed_or_malformed objs :
  wellFormed objs ∨
  ∃ good bad rest, objs = good ++ bad :: rest ∧ wellFormed good ∧ isEndpoints bad = false.
Proof.
  induction objs as [|obj objs IH]; [left; constructor|].
  destruct (isEndpoints obj) eqn:Hobj.
  - destruct IH as [IH|(good & bad & rest & -> & Hgood & Hbad)].
    + left. by constructor.
    + right. exists (obj :: good), bad, rest. split; [done|]. split; [by constructor|done].
  - right. exists [], obj, objs. split; [done|]. split; [constructor|done].
Qed.

Section HandlerFacts.
Variable MetaNamespaceKeyFunc : Object → string * option string.
Variable e : K8sPool.

(** An add notification runs no code of the pool. *)
Lemma OnEvent_add obj w :
  run (OnEvent MetaNamespaceKeyFunc e (EvAdd obj)) w = (w, Ret tt).
Proof. reflexivity. Qed.

(** An update or delete whose key is derived runs [updatePeers]. *)
Lemma OnEvent_qualifying ev w :
  qualifying MetaNamespaceKeyFunc ev = true →
  run (OnEvent MetaNamespaceKeyFunc e ev) w =
  run (updatePeers e)
    (emit [LogDebug (MsgQueue (eventKind ev)
                       (MetaNamespaceKeyFunc (keyedObject ev)).1 None)] w).
Proof.
  unfold qualifying. intros [Hkind Hkey%bool_decide_eq_true]%andb_prop.
  destruct ev as [obj|obj new|obj]; [done| |]; simpl in *;
    unfold run, UpdateFunc, DeleteFunc;
    destruct (MetaNamespaceKeyFunc obj) as [key err]; simpl in Hkey; subst err;
    by go_step.
Qed.

(** An update or delete whose key cannot be derived logs and returns. *)
Lemma OnEvent_key_error ev w :
  isUpdateOrDelete ev = true →
  qualifying MetaNamespaceKeyFunc ev = false →
  ∃ msg,
    (MetaNamespaceKeyFunc (keyedObject ev)).2 = Some msg ∧
    run (OnEvent MetaNamespaceKeyFunc e ev) w =
    (emit [LogDebug (MsgQueue (eventKind ev)
                       (MetaNamespaceKeyFunc (keyedObject ev)).1 (Some msg));
           LogError (MsgKeyFunc msg)] w, Ret tt).
Proof.
  unfold qualifying. intros Hkind Hkey. rewrite Hkind in Hkey. simpl in Hkey.
  apply bool_decide_eq_false in Hkey.
  destruct ev as [obj|obj new|obj]; [done| |]; simpl in *;
    unfold run, UpdateFunc, DeleteFunc;
    destruct (MetaNamespaceKeyFunc obj) as [key [msg|]]; simpl in *; try done;
    exists msg; (split; [done|]); go_step; by rewrite emit_emit.
Qed.

(** On a well-formed store a qualifying notification gives one call of
    the callback, with the list built from the whole store. *)
Lemma OnEvent_rebuild ev w :
  qualifying MetaNamespaceKeyFunc ev = true →
  wellFormed (store w) →
  run (OnEvent MetaNamespaceKeyFunc e ev) w =
  (emit ([LogDebug (MsgQueue (eventKind ev)
                      (MetaNamespaceKeyFunc (keyedObject ev)).1 None);
          LogDebug MsgFetching]
         ++ peerLogs (conf e) (store w)
         ++ [CallOnUpdate (peerList (conf e) (store w))]) w,
   Ret tt).
Proof.
  intros Hq Hwf. rewrite OnEvent_qualifying by done.
  rewrite updatePeers_wellformed by done. by rewrite emit_emit.
Qed.

End HandlerFacts.

(** ** The peer list *)

Lemma elem_of_peerList c objs p :
  p ∈ peerList c objs ↔
  ∃ ep s addr, ObjEndpoints ep ∈ objs ∧ s ∈ Subsets ep ∧ addr ∈ Addresses s ∧
               p = mkPeer c addr.
Proof.
  unfold peerList. rewrite list_elem_of_bind. split.
  - intros (obj & Hp & Hobj). destruct obj as [ep| |]; try by apply elem_of_nil in Hp.
    unfold peersOfEndpoints in Hp. apply list_elem_of_bind in Hp as (s & Hp & Hs).
    apply list_elem_of_fmap in Hp as (addr & -> & Haddr). by exists ep, s, addr.
  - intros (ep & s & addr & Hep & Hs & Haddr & ->). exists (ObjEndpoints ep).
    split; [|done]. unfold peersOfEndpoints. apply list_elem_of_bind.
    exists s. split; [|done]. apply list_elem_of_fmap. by exists addr.
Qed.

Lemma mkPeer_eq c addr :
  mkPeer c addr =
  {| Address := IP addr +:+ ":" +:+ PodPort c;
     IsOwner := bool_decide (IP addr = PodIP c) |}.
Proof. unfold mkPeer. by case_bool_decide. Qed.

Lemma length_peerList c objs : length (peerList c objs) = countAddresses objs.
Proof.
  unfold peerList, countAddresses.
  induction objs as [|obj objs IH]; [done|].
  rewrite bind_cons, fmap_cons, length_app, IH. simpl. f_equal.
  destruct obj as [ep| |]; try done. unfold peersOfEndpoints.
  induction (Subsets ep) as [|s ss IHs]; [done|].
  rewrite bind_cons, fmap_cons, length_app, length_fmap, IHs. done.
Qed.


Lemma peerList_Permutation c objs1 objs2 :
  objs1 ≡ₚ objs2 → peerList c objs1 ≡ₚ peerList c objs2.
Proof. intros H. unfold peerList. by rewrite H. Qed.

Lemma newEffects_emit {A} (m : Go A) w fx r :
  run m w = (emit fx w, r) → newEffects m w = fx.
Proof.
  intros H. unfold newEffects. rewrite H. simpl. by rewrite drop_app_length.
Qed.

(** ** Rebuilding the peer list on a notification *)

Lemma callbacks_wellformed keyFunc e ev w :
  qualifying keyFunc ev = true →
  wellFormed (store w) →
  callbacks keyFunc e ev w = [peerList (conf e) (store w)].
Proof.
  intros Hq Hwf. unfold callbacks.
  rewrite (newEffects_emit _ _ _ _ (OnEvent_rebuild keyFunc e ev w Hq Hwf)).
  simpl. by rewrite onUpdateCalls_app, onUpdateCalls_peerLogs.
Qed.

Lemma callbacks_malformed keyFunc e ev w good bad rest :
  qualifying keyFunc ev = true →
  store w = good ++ bad :: rest →
  wellFormed good →
  isEndpoints bad = false →
  callbacks keyFunc e ev w = [].
Proof.
  intros Hq Hstore Hgood Hbad. unfold callbacks.
  pose proof (OnEvent_qualifying keyFunc e ev w Hq) as Hrun.
  rewrite (updatePeers_malformed e good bad rest) in Hrun by done.
  rewrite emit_emit in Hrun. rewrite (newEffects_emit _ _ _ _ Hrun). simpl.
  by rewrite onUpdateCalls_app, onUpdateCalls_peerLogs.
Qed.

Lemma wellFormed_endpoints eps : wellFormed (ObjEndpoints <$> eps).
Proof. apply Forall_fmap, Forall_forall. done. Qed.

Lemma peerList_endpoints c eps :
  peerList c (ObjEndpoints <$> eps) = eps ≫= entriesOf c.
Proof.
  unfold peerList. induction eps as [|ep eps IH]; [done|].
  rewrite fmap_cons, !bind_cons, IH. f_equal.
  unfold peersOfEndpoints, entriesOf.
  induction (Subsets ep) as [|s ss IHs]; [done|].
  rewrite !bind_cons, IHs. f_equal.
  apply list_fmap_ext. intros _ addr _. apply mkPeer_eq.
Qed.





(** ** Which notifications reach the callback *)

(** C2, as the code has it: over a store of endpoint records, handling a
    notification calls the consumer callback (once, with the rebuilt
    list) if and only if the notification is an update or a delete and
    the key of its object can be derived; when the key function fails
    the handler logs the error and returns without recomputing; an add
    notification runs no code at all. *)
Theorem C2_callback_iff_update_or_delete_with_key keyFunc e ev w :
  wellFormed (store w) →
  is_Ret (run (OnEvent keyFunc e ev) w).2 = true ∧
  callbacks keyFunc e ev w =
    (if qualifying keyFunc ev then [peerList (conf e) (store w)] else []) ∧
  (length (callbacks keyFunc e ev w) = 1%nat ↔
     isUpdateOrDelete ev = true ∧ (keyFunc (keyedObject ev)).2 = None) ∧
  (isUpdateOrDelete ev = false → run (OnEvent keyFunc e ev) w = (w, Ret tt)).
Proof.
  intros Hwf.
  assert (Hcalls : is_Ret (run (OnEvent keyFunc e ev) w).2 = true ∧
            callbacks keyFunc e ev w =
            (if qualifying keyFunc ev then [peerList (conf e) (store w)] else [])).
  { destruct (qualifying keyFunc ev) eqn:Hq.
    - split; [by rewrite OnEvent_rebuild|]. by apply callbacks_wellformed.
    - destruct (isUpdateOrDelete ev) eqn:Hkind.
      + destruct (OnEvent_key_error keyFunc e ev w Hkind Hq) as (msg & _ & Hrun).
        split; [by rewrite Hrun|]. unfold callbacks.
        by rewrite (newEffects_emit _ _ _ _ Hrun).
      + destruct ev as [obj| |]; try discriminate Hkind.
        split; [done|]. unfold callbacks.
        by rewrite (newEffects_emit _ w [] (Ret tt)) by (by rewrite emit_nil). }
  destruct Hcalls as [Hret Hcalls]. split; [done|]. split; [done|]. split.
  - rewrite Hcalls. unfold qualifying.
    destruct (isUpdateOrDelete ev); simpl; [|split; [done|by intros [? _]]].
    case_bool_decide; simpl; split; try done; by intros [_ ?].
  - intros Hkind. destruct ev; try discriminate Hkind. done.
Qed.

Lemma C2_callback_witness :
  is_Ret (run (OnEvent metaNamespaceKey poolB (EvDelete (ObjEndpoints epA))) worldAB).2 = true ∧
  callbacks metaNamespaceKey poolB (EvDelete (ObjEndpoints epA)) worldAB =
    (if qualifying metaNamespaceKey (EvDelete (ObjEndpoints epA))
     then [peerList (conf poolB) (store worldAB)] else []) ∧
  (length (callbacks metaNamespaceKey poolB (EvDelete (ObjEndpoints epA)) worldAB) = 1%nat ↔
     isUpdateOrDelete (EvDelete (ObjEndpoints epA)) = true ∧
     (metaNamespaceKey (keyedObject (EvDelete (ObjEndpoints epA)))).2 = None) ∧
  (isUpdateOrDelete (EvDelete (ObjEndpoints epA)) = false →
   run (OnEvent metaNamespaceKey poolB (EvDelete (ObjEndpoints epA))) worldAB
     = (worldAB, Ret tt)).
Proof.
  apply (C2_callback_iff_update_or_delete_with_key metaNamespaceKey poolB
           (EvDelete (ObjEndpoints epA)) worldAB).
  repeat constructor.
Defined.

(** C2 as stated fails: a delete notification that carries a tombstone
    is a delete, yet the key function fails on it and the handler
    returns after logging, without any call of the callback. *)
Lemma C2_counterexample_tombstone_delete :
  isUpdateOrDelete (EvDelete tombA) = true ∧
  run (OnEvent metaNamespaceKey poolB (EvDelete tombA)) worldAB =
    (emit [LogDebug (MsgQueue "Delete" ""
             (Some "object has no meta: object does not implement the Object interfaces"));
           LogError (MsgKeyFunc
             "object has no meta: object does not implement the Object interfaces")]
          worldAB,
     Ret tt) ∧
  callbacks metaNamespaceKey poolB (EvDelete tombA) worldAB = [].
Proof. by vm_compute. Qed.




(** ** A record of another type *)

(** C3 fails on the code: when the store lists a record that is not a
    [*v1.Endpoints], [updatePeers] logs the error for it and then, having
    no [continue], ranges over the subsets of the nil pointer: the
    goroutine panics, the records after it are not visited and the
    consumer callback is not called. *)
Theorem C3_malformed_record_panics e w good bad rest :
  store w = good ++ bad :: rest →
  wellFormed good →
  isEndpoints bad = false →
  run (updatePeers e) w =
    (emit ([LogDebug MsgFetching] ++ peerLogs (conf e) good
           ++ [LogError (MsgExpectedType (TypeOf bad))]) w,
     Panic NilDereference) ∧
  onUpdateCalls (newEffects (updatePeers e) w) = [].
Proof.
  intros Hstore Hgood Hbad.
  pose proof (updatePeers_malformed e good bad rest w Hstore Hgood Hbad) as Hrun.
  split; [done|]. rewrite (newEffects_emit _ _ _ _ Hrun). simpl.
  rewrite onUpdateCalls_app, onUpdateCalls_peerLogs. done.
Qed.

Lemma C3_malformed_record_witness :
  run (updatePeers poolB) (world0 [ObjEndpoints epA; podX; ObjEndpoints epB]) =
    (emit ([LogDebug MsgFetching] ++ peerLogs (conf poolB) [ObjEndpoints epA]
           ++ [LogError (MsgExpectedType (TypeOf podX))])
       (world0 [ObjEndpoints epA; podX; ObjEndpoints epB]),
     Panic NilDereference) ∧
  onUpdateCalls (newEffects (updatePeers poolB)
                   (world0 [ObjEndpoints epA; podX; ObjEndpoints epB])) = [].
Proof.
  apply (C3_malformed_record_panics poolB
           (world0 [ObjEndpoints epA; podX; ObjEndpoints epB])
           [ObjEndpoints epA] podX [ObjEndpoints epB]).
  - reflexivity.
  - repeat constructor.
  - reflexivity.
Defined.

(** ** Close *)

Lemma closeDone_open w :
  done w = ChanOpen → closeDone w = (setDone ChanClosed w, Ret tt).
Proof. intros H. unfold closeDone. go_step. by rewrite H. Qed.

Lemma closeDone_closed w :
  done w = ChanClosed → closeDone w = (w, Panic CloseOfClosedChannel).
Proof. intros H. unfold closeDone. go_step. by rewrite H. Qed.

(** C4, as the code has it: [Close] only closes the [done] channel.  On
    a pool whose channel is open the first call closes it and returns;
    every call made once the channel is closed panics with "close of
    closed channel" and leaves the world as it is, so a second [Close]
    is not a no-op. *)
Theorem C4_close_closes_done_once e w :
  done w = ChanOpen →
  run (Close e) w = (setDone ChanClosed w, Ret tt) ∧
  (∀ w', done w' = ChanClosed →
         run (Close e) w' = (w', Panic CloseOfClosedChannel)) ∧
  run (Close e;; Close e) w = (setDone ChanClosed w, Panic CloseOfClosedChannel).
Proof.
  intros Hopen. split; [by apply closeDone_open|].
  split; [intros w' Hclosed; by apply closeDone_closed|].
  unfold run, Close. rewrite run_bind, closeDone_open by done.
  by apply closeDone_closed.
Qed.

Lemma C4_close_witness :
  run (Close poolB) (setDone ChanOpen (world0 [])) =
    (setDone ChanClosed (setDone ChanOpen (world0 [])), Ret tt) ∧
  (∀ w', done w' = ChanClosed →
         run (Close poolB) w' = (w', Panic CloseOfClosedChannel)) ∧
  run (Close poolB;; Close poolB) (setDone ChanOpen (world0 [])) =
    (setDone ChanClosed (setDone ChanOpen (world0 [])), Panic CloseOfClosedChannel).
Proof.
  apply (C4_close_closes_done_once poolB (setDone ChanOpen (world0 []))).
  reflexivity.
Defined.

(** C4 as stated fails: on a pool that [NewK8sPool] has just started,
    the second [Close] panics. *)
Lemma C4_counterexample_second_close_panics :
  (run (NewK8sPool 1 envOk confB) (world0 [])).2 = Ret (Some poolB, None) ∧
  (run (NewK8sPool 1 envOk confB;; Close poolB) (world0 [])).2 = Ret tt ∧
  (run (NewK8sPool 1 envOk confB;; Close poolB;; Close poolB) (world0 [])).2
    = Panic CloseOfClosedChannel.
Proof. by vm_compute. Qed.

(** ** Waiting for the first synchronisation *)

Lemma existsb_seq_true (f : nat → bool) tick polls :
  existsb f (seq tick polls) = true ↔ ∃ n, (tick ≤ n < tick + polls)%nat ∧ f n = true.
Proof.
  revert tick. induction polls as [|polls IH]; intros tick; simpl.
  - split; [done|]. intros (n & ? & _). lia.
  - rewrite orb_true_iff, IH. split.
    + intros [H|(n & ? & ?)]; [exists tick|exists n]; split; auto; lia.
    + intros (n & Hn & Hf). destruct (decide (n = tick)) as [->|]; [by left|].
      right. exists n. split; [lia|done].
Qed.

Lemma WaitForCacheSync_open polls hasSynced tick w :
  done w = ChanOpen →
  WaitForCacheSync polls hasSynced tick w =
  (w, if existsb hasSynced (seq tick polls) then Ret true else Blocked).
Proof.
  intros Hopen. revert tick.
  induction polls as [|polls IH]; intros tick; simpl; go_step; rewrite Hopen.
  - done.
  - destruct (hasSynced tick); [done|]. by rewrite IH.
Qed.

(** The wait leaves the world alone and answers false only on a closed
    channel. *)
Lemma WaitForCacheSync_false polls hasSynced tick w :
  ∃ r, WaitForCacheSync polls hasSynced tick w = (w, r) ∧
       (r = Ret false → done w = ChanClosed).
Proof.
  revert tick. induction polls as [|polls IH]; intros tick; simpl; go_step.
  - destruct (done w) eqn:Hd; eexists; (split; [reflexivity|]); done.
  - destruct (done w) eqn:Hd; try (eexists; split; [reflexivity|done]);
      (destruct (hasSynced tick);
       [eexists; split; [reflexivity|done]
       |destruct (IH (S tick)) as (r & Hr & Hfalse); exists r; split; [done|];
        intros Hrf; specialize (Hfalse Hrf); congruence]).
Qed.

(** C7, as the code has it: [start] registers the informer, starts it
    and waits.  On an open [done] channel it returns nil as soon as a
    poll of [HasSynced] answers true and is blocked until then; the wait
    has no time bound, so with a feed that never reports has-synced the
    call stays blocked however long it is observed, and no error is
    returned. *)
Theorem C7_start_waits_without_bound polls env e w :
  done w = ChanOpen →
  run (start polls env e) w =
    (emit (startFx (conf e)) w,
     if existsb (HasSynced env) (seq 0 polls) then Ret None else Blocked) ∧
  ((run (start polls env e) w).2 = Ret None ↔
     ∃ n, (n < polls)%nat ∧ HasSynced env n = true) ∧
  ((∀ n, HasSynced env n = false) →
     ∀ polls', (run (start polls' env e) w).2 = Blocked).
Proof.
  intros Hopen.
  assert (Hrun : ∀ p, run (start p env e) w =
            (emit (startFx (conf e)) w,
             if existsb (HasSynced env) (seq 0 p) then Ret None else Blocked)).
  { intros p. unfold run, start. go_step.
    rewrite WaitForCacheSync_open by done.
    destruct (existsb _ _); by rewrite ?emit_emit. }
  split; [apply Hrun|]. split.
  - rewrite Hrun. simpl. destruct (existsb _ _) eqn:Hex.
    + split; [|done]. intros _. apply existsb_seq_true in Hex as (n & ? & ?).
      exists n. split; [lia|done].
    + split; [done|]. intros (n & Hn & Hs).
      assert (existsb (HasSynced env) (seq 0 polls) = true) as Hex'.
      { apply existsb_seq_true. exists n. split; [lia|done]. }
      congruence.
  - intros Hnever p. rewrite Hrun. simpl. destruct (existsb _ _) eqn:Hex; [|done].
    apply existsb_seq_true in Hex as (n & _ & Hs). rewrite Hnever in Hs. done.
Qed.

Lemma C7_start_witness :
  run (start 3 envOk poolB) (setDone ChanOpen (world0 [])) =
    (emit (startFx (conf poolB)) (setDone ChanOpen (world0 [])),
     if existsb (HasSynced envOk) (seq 0 3) then Ret None else Blocked) ∧
  ((run (start 3 envOk poolB) (setDone ChanOpen (world0 []))).2 = Ret None ↔
     ∃ n, (n < 3)%nat ∧ HasSynced envOk n = true) ∧
  ((∀ n, HasSynced envOk n = false) →
     ∀ polls', (run (start polls' envOk poolB) (setDone ChanOpen (world0 []))).2 = Blocked).
Proof.
  apply (C7_start_waits_without_bound 3 envOk poolB (setDone ChanOpen (world0 []))).
  reflexivity.
Defined.

(** C7 as stated fails: with a feed that never reports has-synced,
    constructing a pool returns nothing, and so no timeout error, within
    any number of polls. *)
Lemma C7_counterexample_never_synced :
  (∀ n, HasSynced envNeverSynced n = false) ∧
  (∀ polls, (run (NewK8sPool polls envNeverSynced confB) (world0 [])).2 = Blocked) ∧
  ¬ ∃ polls pool, (run (NewK8sPool polls envNeverSynced confB) (world0 [])).2
                  = Ret (pool, Some errSyncTimeout).
Proof.
  assert (H : ∀ polls,
    (run (NewK8sPool polls envNeverSynced confB) (world0 [])).2 = Blocked).
  { intros polls. unfold run, NewK8sPool. go_step.
    pose proof (C := WaitForCacheSync_open polls (λ _, false) 0%nat).
    unfold start. go_step. rewrite C by done.
    assert (∀ t, existsb (λ _ : nat, false) (seq t polls) = false) as Hex.
    { clear C. induction polls as [|p IH]; intros t; [done|]. simpl. apply IH. }
    by rewrite Hex. }
  split; [done|]. split; [done|].
  intros (polls & pool & Hret). rewrite H in Hret. done.
Qed.

(** X5: in no world does [start] return the timeout error.
    The wait answers false only when [done] is already closed, and then
    the [close(e.done)] that precedes the [return] panics. *)
Remark start_never_returns_timeout polls env e w :
  (run (start polls env e) w).2 ≠ Ret (Some errSyncTimeout).
Proof.
  unfold run, start. go_step.
  destruct (WaitForCacheSync_false polls (HasSynced env) 0%nat
              (emit [GoInformerRun]
                 (emit [AddEventHandler]
                    (emit [NewSharedIndexInformer (ConfNamespace (conf e))
                             (Selector (conf e))] w))))
    as (r & -> & Hfalse).
  destruct r as [[|]| |]; simpl; try done.
  go_step. rewrite closeDone_closed by auto. done.
Qed.

(** ** The enabled flag *)

Lemma NewK8sPool_effects polls env c w :
  newEffects (NewK8sPool polls env c) w =
  CallInClusterConfig ::
  match InClusterConfig env with
  | Some _ => []
  | None =>
      CallNewForConfig ::
      match NewForConfig env with
      | Some _ => []
      | None => startFx c
      end
  end.
Proof.
  unfold newEffects, run, NewK8sPool. go_step.
  destruct (InClusterConfig env); simpl; [by rewrite drop_app_length|].
  go_step. destruct (NewForConfig env); simpl.
  { by rewrite <- app_assoc, drop_app_length. }
  go_step. unfold start. go_step.
  match goal with
  | |- context [WaitForCacheSync ?p ?h ?t ?w0] =>
      destruct (WaitForCacheSync_false p h t w0) as (r & -> & _)
  end.
  destruct r as [[|]| |]; simpl;
    rewrite <- !app_assoc; by rewrite drop_app_length.
Qed.

(** C5, as the code has it: [NewK8sPool] never reads the [Enabled] flag.
    Whatever its value, the constructor asks for the in-cluster
    configuration, creates the client and, when both succeed, registers
    the informer, starts the background worker and waits for the first
    synchronisation; the flag is only carried along in the stored
    configuration. *)
Theorem C5_enabled_flag_not_consulted polls env c b w :
  run (NewK8sPool polls env (withEnabled b c)) w =
    ((run (NewK8sPool polls env c) w).1,
     resWithEnabled b (run (NewK8sPool polls env c) w).2) ∧
  newEffects (NewK8sPool polls env (withEnabled b c)) w =
    CallInClusterConfig ::
    match InClusterConfig env with
    | Some _ => []
    | None =>
        CallNewForConfig ::
        match NewForConfig env with
        | Some _ => []
        | None =>
            [NewSharedIndexInformer (ConfNamespace c) (Selector c);
             AddEventHandler; GoInformerRun]
        end
    end.
Proof.
  split; [|by rewrite NewK8sPool_effects].
  unfold run, NewK8sPool. go_step.
  destruct (InClusterConfig env); [done|]. go_step.
  destruct (NewForConfig env); [done|]. go_step.
  unfold start. go_step.
  match goal with
  | |- context [WaitForCacheSync ?p ?h ?t ?w0] =>
      destruct (WaitForCacheSync p h t w0) as [w' [[|]| |]]
  end; simpl; try done.
  go_step. destruct (closeDone w') as [w'' [[]| |]]; done.
Qed.

(** C5 as stated fails: with the flag off, in a cluster where the
    configuration and the client are available, the constructor contacts
    the control plane, starts the background worker and returns a pool. *)
Lemma C5_counterexample_disabled_pool_starts :
  Enabled (withEnabled false confB) = false ∧
  run (NewK8sPool 1 envOk (withEnabled false confB)) (world0 []) =
    ({| trace := [CallInClusterConfig; CallNewForConfig;
                  NewSharedIndexInformer "default" "app=gubernator";
                  AddEventHandler; GoInformerRun];
        done := ChanOpen;
        store := [] |},
     Ret (Some {| conf := withEnabled false confB |}, None)).
Proof. by vm_compute. Qed.

(** ** The order of the peer list *)

Lemma updatePeers_calls e w :
  wellFormed (store w) →
  onUpdateCalls (newEffects (updatePeers e) w) = [peerList (conf e) (store w)].
Proof.
  intros Hwf. rewrite (newEffects_emit _ _ _ _ (updatePeers_wellformed e w Hwf)).
  simpl. by rewrite onUpdateCalls_app, onUpdateCalls_peerLogs.
Qed.

Lemma updatePeers_calls_endpoints e w eps :
  onUpdateCalls (newEffects (updatePeers e) (setStore (ObjEndpoints <$> eps) w))
  = [eps ≫= entriesOf (conf e)].
Proof.
  rewrite updatePeers_calls by apply wellFormed_endpoints.
  simpl. by rewrite peerList_endpoints.
Qed.

(** C6, as the code has it: [updatePeers] does not sort.  Over a store
    of endpoint records the list it passes to the callback is the
    entries of the records in the order in which the store lists them,
    whatever the process did before: listing [epsA] and then [epsB]
    gives the entries of [epsA] followed by those of [epsB], and listing
    them the other way round gives them the other way round.  Two
    listings of one snapshot therefore give the same entries, possibly
    in another order.  With pod IP 10.0.0.2 and port 8080, the records A
    (10.0.0.1) and B (10.0.0.2) listed as A, B give exactly
    [{10.0.0.1:8080, false}; {10.0.0.2:8080, true}], and listed as B, A
    give these two entries in the opposite order. *)
Theorem C6_peer_order_follows_listing e snapshot eps1 eps2 w :
  isListing snapshot (ObjEndpoints <$> eps1) →
  isListing snapshot (ObjEndpoints <$> eps2) →
  let build := λ eps,
    onUpdateCalls (newEffects (updatePeers e) (setStore (ObjEndpoints <$> eps) w)) in
  build eps1 = [eps1 ≫= entriesOf (conf e)] ∧
  build eps2 = [eps2 ≫= entriesOf (conf e)] ∧
  eps1 ≫= entriesOf (conf e) ≡ₚ eps2 ≫= entriesOf (conf e) ∧
  (∀ epsA epsB,
      build (epsA ++ epsB) = [(epsA ≫= entriesOf (conf e)) ++ (epsB ≫= entriesOf (conf e))] ∧
      build (epsB ++ epsA) = [(epsB ≫= entriesOf (conf e)) ++ (epsA ≫= entriesOf (conf e))]) ∧
  (∀ eps w', onUpdateCalls (newEffects (updatePeers e) (setStore (ObjEndpoints <$> eps) w'))
             = build eps) ∧
  (conf e = confB →
   build [epA; epB] = [[peerA; peerB]] ∧ build [epB; epA] = [[peerB; peerA]]).
Proof.
  unfold isListing. intros H1 H2. cbv zeta.
  rewrite !updatePeers_calls_endpoints.
  split; [done|]. split; [done|]. split; [|split; [|split]].
  - assert (ObjEndpoints <$> eps1 ≡ₚ ObjEndpoints <$> eps2) as Hperm
      by (by rewrite H1, H2).
    apply (peerList_Permutation (conf e)) in Hperm.
    by rewrite !peerList_endpoints in Hperm.
  - intros epsA epsB. rewrite !updatePeers_calls_endpoints. by rewrite !bind_app.
  - intros eps w'. by rewrite !updatePeers_calls_endpoints.
  - intros Hconf. rewrite Hconf. done.
Qed.

Lemma isListing_AB : isListing snapshotAB (store worldAB).
Proof.
  unfold isListing, snapshotAB.
  rewrite map_to_list_insert by done. rewrite map_to_list_singleton. done.
Qed.

Lemma isListing_BA : isListing snapshotAB (store worldBA).
Proof.
  unfold isListing, snapshotAB.
  rewrite map_to_list_insert by done. rewrite map_to_list_singleton.
  simpl. apply perm_swap.
Qed.

Lemma C6_peer_order_witness :
  let build := λ eps,
    onUpdateCalls (newEffects (updatePeers poolB)
                     (setStore (ObjEndpoints <$> eps) (world0 []))) in
  build [epA; epB] = [[epA; epB] ≫= entriesOf (conf poolB)] ∧
  build [epB; epA] = [[epB; epA] ≫= entriesOf (conf poolB)] ∧
  [epA; epB] ≫= entriesOf (conf poolB) ≡ₚ [epB; epA] ≫= entriesOf (conf poolB) ∧
  (∀ epsA epsB,
      build (epsA ++ epsB)
        = [(epsA ≫= entriesOf (conf poolB)) ++ (epsB ≫= entriesOf (conf poolB))] ∧
      build (epsB ++ epsA)
        = [(epsB ≫= entriesOf (conf poolB)) ++ (epsA ≫= entriesOf (conf poolB))]) ∧
  (∀ eps w', onUpdateCalls (newEffects (updatePeers poolB)
                              (setStore (ObjEndpoints <$> eps) w'))
             = build eps) ∧
  (conf poolB = confB →
   build [epA; epB] = [[peerA; peerB]] ∧ build [epB; epA] = [[peerB; peerA]]).
Proof.
  apply (C6_peer_order_follows_listing poolB snapshotAB [epA; epB] [epB; epA] (world0 [])).
  - apply isListing_AB.
  - apply isListing_BA.
Defined.

(** C6 as stated fails: the snapshot with the records A and B can be
    listed as B, A, and then the callback receives the entry of B first:
    two runs over one snapshot and one configuration differ, and the
    second is not the list the claim names. *)
Lemma C6_counterexample_listing_order :
  isListing snapshotAB (store worldAB) ∧
  isListing snapshotAB (store worldBA) ∧
  onUpdateCalls (newEffects (updatePeers poolB) worldAB) = [[peerA; peerB]] ∧
  onUpdateCalls (newEffects (updatePeers poolB) worldBA) = [[peerB; peerA]] ∧
  [peerB; peerA] ≠ [peerA; peerB].
Proof.
  split; [apply isListing_AB|]. split; [apply isListing_BA|].
  split; [by vm_compute|]. split; [by vm_compute|]. discriminate.
Qed.

(** ** The aggregation loop of the metrics collector *)

Lemma loopBody_stat st stat :
  loopBody st (RecvStat stat) =
  ({| methods := aggregate (methods st) stat; sent := sent st |}, true).
Proof.
  unfold aggregate. simpl. destruct st as [m out]. simpl.
  by destruct (m !! Method stat).
Qed.

Lemma Until_stats stats st :
  Until (RecvStat <$> stats) st =
  {| methods := foldl aggregate (methods st) stats; sent := sent st |}.
Proof.
  revert st. induction stats as [|stat stats IH]; intros st.
  - by destruct st.
  - rewrite fmap_cons. cbn [Until]. rewrite loopBody_stat. by rewrite IH.
Qed.

Lemma Until_app evs1 evs2 st :
  Forall (λ ev, ev ≠ Done) evs1 →
  Until (evs1 ++ evs2) st = Until evs2 (Until evs1 st).
Proof.
  intros Hnd. revert st. induction Hnd as [|ev evs1 Hev _ IH]; intros st; [done|].
  simpl. destruct ev; try done; destruct (loopBody st _) as [st' []] eqn:Hbody;
    try apply IH; simpl in Hbody.
  - by destruct (methods st !! Method stat).
  - done.
Qed.

Lemma aggregate_lookup m stat k :
  aggregate m stat !! k =
  match m !! k with
  | Some item => Some item
  | None => if decide (Method stat = k) then Some (setCalled 1 stat) else None
  end.
Proof.
  unfold aggregate. simpl. destruct (m !! Method stat) as [item|] eqn:Hm; simpl.
  - destruct (m !! k) eqn:Hk; [done|]. case_decide; [congruence|done].
  - destruct (decide (Method stat = k)) as [<-|Hne].
    + by rewrite lookup_insert_eq, Hm.
    + rewrite lookup_insert_ne by done. by destruct (m !! k).
Qed.

Lemma foldl_aggregate_lookup stats m k :
  foldl aggregate m stats !! k =
  match m !! k with
  | Some item => Some item
  | None => setCalled 1 <$> firstStat k stats
  end.
Proof.
  revert m. induction stats as [|stat stats IH]; intros m; simpl.
  - by destruct (m !! k).
  - rewrite IH, aggregate_lookup. unfold firstStat. rewrite filter_cons.
    destruct (m !! k); [done|]. by case_decide.
Qed.

Lemma intervalEvents_running iv : Forall (λ ev, ev ≠ Done) (intervalEvents iv).
Proof.
  unfold intervalEvents. apply Forall_app. split.
  - apply Forall_fmap, Forall_forall. done.
  - by repeat constructor.
Qed.

Lemma history_running (prev : list (list RequestStats * option CacheStats)) :
  Forall (λ ev, ev ≠ Done) (prev ≫= intervalEvents).
Proof.
  induction prev as [|iv prev IH]; [constructor|].
  rewrite bind_cons. apply Forall_app. split; [apply intervalEvents_running|done].
Qed.

(** One whole interval: the map is replaced by an empty one, and what is
    sent is read off the map the stats of this interval built. *)
Lemma Until_interval iv st :
  Until (intervalEvents iv) st =
  {| methods := ∅;
     sent := sent st ++ (map_to_list (foldl aggregate (methods st) iv.1) ≫= emitMethod)
                     ++ emitCache iv.2 |}.
Proof.
  unfold intervalEvents.
  rewrite Until_app by (apply Forall_fmap, Forall_forall; done).
  by rewrite Until_stats.
Qed.

Lemma Until_history_methods (prev : list (list RequestStats * option CacheStats)) st :
  methods st = ∅ → methods (Until (prev ≫= intervalEvents) st) = ∅.
Proof.
  revert st. induction prev as [|iv prev IH]; intros st Hst; [done|].
  rewrite bind_cons, Until_app by apply intervalEvents_running.
  apply IH. by rewrite Until_interval.
Qed.

(** C9: in the aggregation loop, a stat whose method already has an
    entry in the map leaves the loop state, and so the map, exactly as
    it was: the summed failures and the incremented call count exist
    only in the local copy.  Hence in every interval, the first after
    [Start] or one that follows any number of earlier intervals, the
    entry of a method is the first stat received for it in that interval
    with its call count set to 1, and the calls the tick at its end makes
    for the methods are, for each method that had a stat, the gauge with
    that first stat's duration, the total 1 and that stat's failed
    count, and no others. *)
Theorem C9_known_method_leaves_map_unchanged st stat item prev stats cacheStats :
  methods st !! Method stat = Some item →
  (loopBody st (RecvStat stat) = (st, true) ∧
   Called (bumped item stat) = wrap64 (Called item + 1) ∧
   Failed (bumped item stat) = wrap64 (Failed item + Failed stat)) ∧
  let before := Start (prev ≫= intervalEvents) in
  (∀ m, methods (Until (RecvStat <$> stats) before) !! m
        = setCalled 1 <$> firstStat m stats) ∧
  ∃ new,
    sent (Start ((prev ≫= intervalEvents) ++ intervalEvents (stats, cacheStats)))
      = sent before ++ new ++ emitCache cacheStats ∧
    (∀ m first,
        firstStat m stats = Some first →
        Gauge ("api." +:+ methodName m +:+ ".duration") (Duration first) ∈ new ∧
        Inc ("api." +:+ methodName m +:+ ".total") 1 ∈ new ∧
        Inc ("api." +:+ methodName m +:+ ".failed") (Failed first) ∈ new) ∧
    (∀ call,
        call ∈ new →
        ∃ m first,
          firstStat m stats = Some first ∧
          call ∈ [ Gauge ("api." +:+ methodName m +:+ ".duration") (Duration first);
                   Inc ("api." +:+ methodName m +:+ ".total") 1;
                   Inc ("api." +:+ methodName m +:+ ".failed") (Failed first) ]).
Proof.
  intros Hitem. split.
  { split; [|split].
    - simpl. rewrite Hitem. done.
    - unfold bumped. by case_bool_decide.
    - unfold bumped. by case_bool_decide. }
  cbv zeta.
  assert (Hempty : methods (Start (prev ≫= intervalEvents)) = ∅)
    by (by apply Until_history_methods).
  assert (Hlookup : ∀ m, foldl aggregate ∅ stats !! m = setCalled 1 <$> firstStat m stats).
  { intros m. by rewrite foldl_aggregate_lookup, lookup_empty. }
  split.
  { intros m. rewrite Until_stats. simpl. by rewrite Hempty. }
  exists (map_to_list (foldl aggregate ∅ stats) ≫= emitMethod). split; [|split].
  - unfold Start at 1. rewrite Until_app by apply history_running.
    fold (Start (prev ≫= intervalEvents)).
    rewrite Until_interval. simpl. by rewrite Hempty.
  - intros m first Hfirst.
    assert ((m, setCalled 1 first) ∈ map_to_list (foldl aggregate ∅ stats)) as Hin.
    { apply elem_of_map_to_list. by rewrite Hlookup, Hfirst. }
    assert (∀ call, call ∈ emitMethod (m, setCalled 1 first) →
              call ∈ map_to_list (foldl aggregate ∅ stats) ≫= emitMethod) as Hsent.
    { intros call Hcall. apply list_elem_of_bind. eauto. }
    unfold emitMethod in Hsent. simpl in Hsent.
    repeat split; apply Hsent; set_solver.
  - intros call ([m item'] & Hcall & Hin%elem_of_map_to_list)%list_elem_of_bind.
    rewrite Hlookup in Hin.
    destruct (firstStat m stats) as [first|] eqn:Hfirst; [|done].
    injection Hin as <-. by exists m, first.
Qed.

Lemma C9_known_method_witness :
  (loopBody {| methods := {[ Method statA1 := setCalled 1 statA1 ]}; sent := [] |}
     (RecvStat statA2)
   = ({| methods := {[ Method statA1 := setCalled 1 statA1 ]}; sent := [] |}, true) ∧
   Called (bumped (setCalled 1 statA1) statA2) = wrap64 (Called (setCalled 1 statA1) + 1) ∧
   Failed (bumped (setCalled 1 statA1) statA2)
     = wrap64 (Failed (setCalled 1 statA1) + Failed statA2)) ∧
  let before := Start ([([statB1; statA2], None)] ≫= intervalEvents) in
  (∀ m, methods (Until (RecvStat <$> [statA1; statA2; statB1; statA2]) before) !! m
        = setCalled 1 <$> firstStat m [statA1; statA2; statB1; statA2]) ∧
  ∃ new,
    sent (Start (([([statB1; statA2], None)] ≫= intervalEvents)
                 ++ intervalEvents ([statA1; statA2; statB1; statA2], None)))
      = sent before ++ new ++ emitCache None ∧
    (∀ m first,
        firstStat m [statA1; statA2; statB1; statA2] = Some first →
        Gauge ("api." +:+ methodName m +:+ ".duration") (Duration first) ∈ new ∧
        Inc ("api." +:+ methodName m +:+ ".total") 1 ∈ new ∧
        Inc ("api." +:+ methodName m +:+ ".failed") (Failed first) ∈ new) ∧
    (∀ call,
        call ∈ new →
        ∃ m first,
          firstStat m [statA1; statA2; statB1; statA2] = Some first ∧
          call ∈ [ Gauge ("api." +:+ methodName m +:+ ".duration") (Duration first);
                   Inc ("api." +:+ methodName m +:+ ".total") 1;
                   Inc ("api." +:+ methodName m +:+ ".failed") (Failed first) ]).
Proof.
  apply (C9_known_method_leaves_map_unchanged
           {| methods := {[ Method statA1 := setCalled 1 statA1 ]}; sent := [] |}
           statA2 (setCalled 1 statA1) [([statB1; statA2], None)]
           [statA1; statA2; statB1; statA2] None).
  reflexivity.
Defined.

(** One interval on sample stats: the second and the third stat, both
    for a method already seen, change nothing that is sent. *)
Example interval_sample :
  sent (Start [RecvStat statA1; RecvStat statA2; RecvStat statA2; Tick None; Done]) =
  [ Gauge "api.GetRateLimits.duration" 500; Inc "api.GetRateLimits.total" 1;
    Inc "api.GetRateLimits.failed" 0; ClientClose ].
Proof. by vm_compute. Qed.

(** Two intervals on sample stats: the stat received before the first
    tick is not sent again at the second, where the first stat of the
    second interval decides. *)
Example two_intervals_sample :
  sent (Start [RecvStat statA1; Tick None; RecvStat statA2; RecvStat statA1; Tick None]) =
  [ Gauge "api.GetRateLimits.duration" 500; Inc "api.GetRateLimits.total" 1;
    Inc "api.GetRateLimits.failed" 0;
    Gauge "api.GetRateLimits.duration" 200; Inc "api.GetRateLimits.total" 1;
    Inc "api.GetRateLimits.failed" 1 ].
Proof. by vm_compute. Qed.

(** * Further properties of [kubernetes.go] *)

Lemma emit_setDone c fx w : emit fx (setDone c w) = setDone c (emit fx w).
Proof. reflexivity. Qed.

Lemma malformed_not_wellFormed good bad rest :
  isEndpoints bad = false → ¬ wellFormed (good ++ bad :: rest).
Proof.
  intros Hbad Hwf. apply Forall_app in Hwf as [_ Hwf].
  apply Forall_cons in Hwf as [Hwf _]. congruence.
Qed.

(** What [updatePeers] does on any world, in one statement. *)
Lemma updatePeers_outcome e w :
  ∃ fx r,
    run (updatePeers e) w = (emit fx w, r) ∧
    ((wellFormed (store w) ∧ r = Ret tt ∧
      onUpdateCalls fx = [peerList (conf e) (store w)]) ∨
     (¬ wellFormed (store w) ∧ r = Panic NilDereference ∧ onUpdateCalls fx = [])).
Proof.
  destruct (wellFormed_or_malformed (store w))
    as [Hwf|(good & bad & rest & Hstore & Hgood & Hbad)].
  - eexists _, _. split; [by apply updatePeers_wellformed|]. left.
    split; [done|]. split; [done|]. simpl.
    by rewrite onUpdateCalls_app, onUpdateCalls_peerLogs.
  - eexists _, _. split; [by apply (updatePeers_malformed e good bad rest)|]. right.
    split; [rewrite Hstore; by apply malformed_not_wellFormed|]. split; [done|].
    simpl. by rewrite onUpdateCalls_app, onUpdateCalls_peerLogs.
Qed.

Lemma wellFormed_iff_endpoints objs :
  wellFormed objs ↔ ∃ eps, objs = ObjEndpoints <$> eps.
Proof.
  split; [|intros [eps ->]; apply wellFormed_endpoints].
  induction 1 as [|obj objs Hobj _ [eps ->]]; [by exists []|].
  destruct obj as [ep| |]; try discriminate Hobj. by exists (ep :: eps).
Qed.

(** X1: [updatePeers] reaches the call of the consumer callback exactly
    when every record the store lists is a [*v1.Endpoints].  The call is
    then the last thing it does, made once, after all its log lines and
    with the entries of all records; otherwise it panics on the nil
    pointer before any call. *)
Theorem updatePeers_calls_back_iff_endpoints e w :
  (onUpdateCalls (newEffects (updatePeers e) w) = [peerList (conf e) (store w)] ↔
     ∃ eps, store w = ObjEndpoints <$> eps) ∧
  ((¬ ∃ eps, store w = ObjEndpoints <$> eps) →
     (run (updatePeers e) w).2 = Panic NilDereference ∧
     onUpdateCalls (newEffects (updatePeers e) w) = []) ∧
  (∀ eps, store w = ObjEndpoints <$> eps →
     ∃ logs, newEffects (updatePeers e) w
               = logs ++ [CallOnUpdate (eps ≫= entriesOf (conf e))] ∧
             onUpdateCalls logs = []).
Proof.
  destruct (updatePeers_outcome e w) as (fx & r & Hrun & Hcases).
  rewrite (newEffects_emit _ _ _ _ Hrun), Hrun. simpl.
  rewrite <- wellFormed_iff_endpoints.
  destruct Hcases as [(Hwf & -> & Hcalls)|(Hnwf & -> & Hcalls)].
  - split; [by rewrite Hcalls|]. split; [done|].
    intros eps Hstore.
    pose proof (updatePeers_wellformed e w Hwf) as Hrun'. unfold run in *.
    rewrite Hrun in Hrun'. injection Hrun' as Hfx. apply app_inv_head in Hfx. subst fx.
    exists ([LogDebug MsgFetching] ++ peerLogs (conf e) (store w)).
    rewrite Hstore at 2. rewrite peerList_endpoints.
    split; [by rewrite <- app_assoc|].
    simpl. apply onUpdateCalls_peerLogs.
  - rewrite Hcalls. split; [split; [done|by intros ?]|]. split; [done|].
    intros eps Hstore. exfalso. apply Hnwf. apply wellFormed_iff_endpoints. eauto.
Qed.

Section HandlerOutcome.
Variable MetaNamespaceKeyFunc : Object → string * option string.
Variable e : K8sPool.

(** What handling one notification does on any world. *)
Lemma OnEvent_outcome ev w :
  ∃ fx r,
    run (OnEvent MetaNamespaceKeyFunc e ev) w = (emit fx w, r) ∧
    (r = Ret tt ∨ r = Panic NilDereference) ∧
    (r = Panic NilDereference ↔
       qualifying MetaNamespaceKeyFunc ev = true ∧ ¬ wellFormed (store w)).
Proof.
  destruct (qualifying MetaNamespaceKeyFunc ev) eqn:Hq.
  - rewrite OnEvent_qualifying by done.
    destruct (updatePeers_outcome e
                (emit [LogDebug (MsgQueue (eventKind ev)
                         (MetaNamespaceKeyFunc (keyedObject ev)).1 None)] w))
      as (fx & r & Hrun & Hcases).
    rewrite Hrun, emit_emit. eexists _, r. split; [done|]. simpl in Hcases.
    destruct Hcases as [(Hwf & -> & _)|(Hnwf & -> & _)].
    + split; [by left|]. split; [done|]. by intros [_ ?].
    + split; [by right|]. done.
  - destruct (isUpdateOrDelete ev) eqn:Hkind.
    + destruct (OnEvent_key_error MetaNamespaceKeyFunc e ev w Hkind Hq)
        as (msg & _ & Hrun).
      rewrite Hrun. eexists _, _. split; [done|]. split; [by left|].
      split; [done|]. by intros [? _].
    + destruct ev as [obj| |]; try discriminate Hkind.
      exists [], (Ret tt). split; [by rewrite emit_nil|]. split; [by left|].
      split; [done|]. by intros [? _].
Qed.

End HandlerOutcome.

(** X2: handling a notification reaches the call of the consumer
    callback exactly when the notification is an update or a delete,
    its key is derived and every record the store lists is a
    [*v1.Endpoints].  With such a notification and a record of another
    type in the store the handler panics on the nil pointer before any
    call; an add, or an update or delete whose key cannot be derived,
    returns without a call. *)
Theorem OnEvent_calls_back_iff keyFunc e ev w :
  (callbacks keyFunc e ev w = [peerList (conf e) (store w)] ↔
     isUpdateOrDelete ev = true ∧ (keyFunc (keyedObject ev)).2 = None ∧
     ∃ eps, store w = ObjEndpoints <$> eps) ∧
  (isUpdateOrDelete ev = true → (keyFunc (keyedObject ev)).2 = None →
   (¬ ∃ eps, store w = ObjEndpoints <$> eps) →
     (run (OnEvent keyFunc e ev) w).2 = Panic NilDereference ∧
     callbacks keyFunc e ev w = []) ∧
  (isUpdateOrDelete ev = false ∨ (keyFunc (keyedObject ev)).2 ≠ None →
     (run (OnEvent keyFunc e ev) w).2 = Ret tt ∧
     callbacks keyFunc e ev w = []).
Proof.
  assert (Hq : qualifying keyFunc ev = true ↔
               isUpdateOrDelete ev = true ∧ (keyFunc (keyedObject ev)).2 = None).
  { unfold qualifying. rewrite andb_true_iff, bool_decide_eq_true. done. }
  assert (Hmal : qualifying keyFunc ev = true → ¬ wellFormed (store w) →
            (run (OnEvent keyFunc e ev) w).2 = Panic NilDereference ∧
            callbacks keyFunc e ev w = []).
  { intros Hqt Hnwf.
    destruct (wellFormed_or_malformed (store w))
      as [Hwf|(good & bad & rest & Hstore & Hgood & Hbad)]; [done|].
    split; [|by apply (callbacks_malformed _ _ _ _ good bad rest)].
    rewrite OnEvent_qualifying by done.
    by rewrite (updatePeers_malformed e good bad rest). }
  assert (Hnq : qualifying keyFunc ev = false →
            (run (OnEvent keyFunc e ev) w).2 = Ret tt ∧ callbacks keyFunc e ev w = []).
  { intros Hqf. destruct (isUpdateOrDelete ev) eqn:Hkind.
    - destruct (OnEvent_key_error keyFunc e ev w Hkind Hqf) as (msg & _ & Hrun).
      split; [by rewrite Hrun|]. unfold callbacks.
      by rewrite (newEffects_emit _ _ _ _ Hrun).
    - destruct ev as [obj| |]; try discriminate Hkind. split; [done|].
      unfold callbacks.
      by rewrite (newEffects_emit _ w [] (Ret tt)) by (by rewrite emit_nil). }
  rewrite <- wellFormed_iff_endpoints. split; [|split].
  - split.
    + intros Hcalls. destruct (qualifying keyFunc ev) eqn:Hqv.
      * destruct (wellFormed_or_malformed (store w))
          as [Hwf|(good & bad & rest & Hstore & Hgood & Hbad)].
        -- destruct Hq as [Hq _]. destruct (Hq eq_refl). done.
        -- by rewrite (callbacks_malformed _ _ _ _ good bad rest) in Hcalls.
      * destruct (Hnq eq_refl) as [_ Hnone]. by rewrite Hnone in Hcalls.
    + intros (Hkind & Hkey & Hwf). apply callbacks_wellformed; [|done].
      by apply Hq.
  - intros Hkind Hkey Hnwf. apply Hmal; [by apply Hq|done].
  - intros Hor. apply Hnq. destruct (qualifying keyFunc ev) eqn:Hqv; [|done].
    destruct Hq as [Hq _]. destruct (Hq eq_refl) as [Hkind Hkey].
    destruct Hor as [Hk|Hk]; congruence.
Qed.

(** X3: the handlers do not consult the [done] channel: whatever its
    state, a notification is handled in the same way, so that closing
    the channel with [Close] does not by itself stop a notification that
    still reaches a handler from calling the consumer callback. *)
Theorem OnEvent_ignores_done keyFunc e ev c w :
  run (OnEvent keyFunc e ev) (setDone c w) =
    (setDone c (run (OnEvent keyFunc e ev) w).1, (run (OnEvent keyFunc e ev) w).2) ∧
  callbacks keyFunc e ev (setDone c w) = callbacks keyFunc e ev w.
Proof.
  destruct (OnEvent_outcome keyFunc e ev w) as (fx & r & Hrun & _ & Hp).
  destruct (OnEvent_outcome keyFunc e ev (setDone c w)) as (fx' & r' & Hrun' & _ & Hp').
  assert (fx' = fx ∧ r' = r) as [-> ->].
  { destruct (qualifying keyFunc ev) eqn:Hq.
    - rewrite OnEvent_qualifying in Hrun, Hrun' by done.
      destruct (wellFormed_or_malformed (store w))
        as [Hwf|(good & bad & rest & Hstore & Hgood & Hbad)].
      + rewrite updatePeers_wellformed in Hrun, Hrun' by done.
        rewrite emit_emit in Hrun, Hrun'. simpl in *.
        injection Hrun as Hfx <-. injection Hrun' as Hfx' <-.
        apply app_inv_head in Hfx, Hfx'. by subst.
      + rewrite (updatePeers_malformed e good bad rest) in Hrun, Hrun' by done.
        rewrite emit_emit in Hrun, Hrun'. simpl in *.
        injection Hrun as Hfx <-. injection Hrun' as Hfx' <-.
        apply app_inv_head in Hfx, Hfx'. by subst.
    - destruct (isUpdateOrDelete ev) eqn:Hkind.
      + destruct (OnEvent_key_error keyFunc e ev w Hkind Hq) as (msg & Hmsg & H1).
        destruct (OnEvent_key_error keyFunc e ev (setDone c w) Hkind Hq)
          as (msg' & Hmsg' & H2).
        rewrite H1 in Hrun. rewrite H2 in Hrun'. simpl in *.
        injection Hrun as Hfx <-. injection Hrun' as Hfx' <-.
        apply app_inv_head in Hfx, Hfx'. subst. split; [|done]. congruence.
      + destruct ev as [obj| |]; try discriminate Hkind.
        rewrite OnEvent_add in Hrun, Hrun'.
        injection Hrun as Hfx <-. injection Hrun' as Hfx' <-.
        apply (f_equal trace) in Hfx. simpl in Hfx, Hfx'.
        rewrite <- (app_nil_r (trace w)) in Hfx at 1.
        rewrite <- (app_nil_r (trace w)) in Hfx' at 1.
        apply app_inv_head in Hfx, Hfx'. by subst. }
  split; [by rewrite Hrun, Hrun'|].
  unfold callbacks. by rewrite (newEffects_emit _ _ _ _ Hrun), (newEffects_emit _ _ _ _ Hrun').
Qed.

(** X4: the outcome of [NewK8sPool] in closed form.  A failure of
    [rest.InClusterConfig] or of [kubernetes.NewForConfig] is returned
    wrapped, with a nil pool, before the [done] channel is made or any
    informer exists.  Otherwise the informer is started on a fresh open
    channel and the call returns the pool with a nil error once a poll
    reports has-synced, and is blocked until then.  So the constructor
    never panics and never returns a pool together with an error. *)
Theorem NewK8sPool_outcome polls env c w :
  run (NewK8sPool polls env c) w =
    match InClusterConfig env with
    | Some err =>
        (emit [CallInClusterConfig] w,
         Ret (None, Some ("during InClusterConfig(): " +:+ err)))
    | None =>
        match NewForConfig env with
        | Some err =>
            (emit [CallInClusterConfig; CallNewForConfig] w,
             Ret (None, Some ("during NewForConfig(): " +:+ err)))
        | None =>
            (emit (startFx c)
               (setDone ChanOpen (emit [CallInClusterConfig; CallNewForConfig] w)),
             if existsb (HasSynced env) (seq 0 polls)
             then Ret (Some {| conf := c |}, None) else Blocked)
        end
    end ∧
  (∀ p, (run (NewK8sPool polls env c) w).2 ≠ Panic p) ∧
  (∀ pool err,
      (run (NewK8sPool polls env c) w).2 = Ret (Some pool, err) →
      err = None ∧ pool = {| conf := c |} ∧
      done (run (NewK8sPool polls env c) w).1 = ChanOpen).
Proof.
  assert (run (NewK8sPool polls env c) w =
    match InClusterConfig env with
    | Some err =>
        (emit [CallInClusterConfig] w,
         Ret (None, Some ("during InClusterConfig(): " +:+ err)))
    | None =>
        match NewForConfig env with
        | Some err =>
            (emit [CallInClusterConfig; CallNewForConfig] w,
             Ret (None, Some ("during NewForConfig(): " +:+ err)))
        | None =>
            (emit (startFx c)
               (setDone ChanOpen (emit [CallInClusterConfig; CallNewForConfig] w)),
             if existsb (HasSynced env) (seq 0 polls)
             then Ret (Some {| conf := c |}, None) else Blocked)
        end
    end) as Hrun.
  { unfold run, NewK8sPool. go_step.
    destruct (InClusterConfig env); [done|]. go_step.
    destruct (NewForConfig env); [by rewrite emit_emit|]. go_step.
    unfold start. go_step. rewrite WaitForCacheSync_open by done.
    destruct (existsb _ _); simpl; by rewrite !emit_emit. }
  split; [done|]. rewrite Hrun.
  destruct (InClusterConfig env), (NewForConfig env),
    (existsb (HasSynced env) (seq 0 polls)); simpl;
    (split; [intros p Hp|intros pool err Hp]); by simplify_eq.
Qed.

(** ** Owner flags and duplicates *)

Lemma string_length_app s t :
  String.length (s +:+ t) = (String.length s + String.length t)%nat.
Proof. induction s as [|a s IH]; simpl; [done|]. by rewrite IH. Qed.

Lemma string_app_inj_r t s1 s2 : s1 +:+ t = s2 +:+ t → s1 = s2.
Proof.
  revert s2. induction s1 as [|a s1 IH]; intros [|b s2] H; simpl in H.
  - done.
  - exfalso. apply (f_equal String.length) in H.
    rewrite ?string_length_app in H. simpl in H. rewrite ?string_length_app in H. lia.
  - exfalso. apply (f_equal String.length) in H.
    rewrite ?string_length_app in H. simpl in H. rewrite ?string_length_app in H. lia.
  - injection H as -> H. f_equal. by apply IH.
Qed.

Lemma mkPeer_owner c addr :
  IsOwner (mkPeer c addr) = true ↔
  Address (mkPeer c addr) = PodIP c +:+ ":" +:+ PodPort c.
Proof.
  rewrite mkPeer_eq. simpl. rewrite bool_decide_eq_true. split; [by intros ->|].
  apply string_app_inj_r.
Qed.

(** X6: in every list the consumer callback receives, an entry is flagged
    as owner exactly when its address is the pod's own IP joined with the
    configured port; in particular no entry is flagged when no address
    in the store has the pod's IP: the callback then receives a list
    without owner. *)
Theorem owner_iff_own_address e w :
  Forall (Forall (λ p, IsOwner p = true ↔
                       Address p = PodIP (conf e) +:+ ":" +:+ PodPort (conf e)))
    (onUpdateCalls (newEffects (updatePeers e) w)) ∧
  ((∀ ep s addr, ObjEndpoints ep ∈ store w → s ∈ Subsets ep → addr ∈ Addresses s →
                 IP addr ≠ PodIP (conf e)) →
   Forall (Forall (λ p, IsOwner p = false))
     (onUpdateCalls (newEffects (updatePeers e) w))).
Proof.
  destruct (updatePeers_outcome e w) as (fx & r & Hrun & Hcases).
  rewrite (newEffects_emit _ _ _ _ Hrun).
  destruct Hcases as [(_ & _ & ->)|(_ & _ & ->)]; [|split; constructor].
  split.
  - repeat constructor. apply Forall_forall.
    intros p (ep & s & addr & _ & _ & _ & ->)%elem_of_peerList. apply mkPeer_owner.
  - intros Hnone. repeat constructor. apply Forall_forall.
    intros p (ep & s & addr & Hep & Hs & Haddr & ->)%elem_of_peerList.
    rewrite mkPeer_eq. simpl. apply bool_decide_eq_false. eauto.
Qed.

(** X7: the list is built record by record and nothing is filtered out:
    over a store that lists the records [objs1] followed by [objs2] the
    callback receives the list for [objs1] followed by the list for
    [objs2]; a record listed twice, or an address carried by two records,
    appears twice. *)
Theorem peer_lists_concatenate e w objs1 objs2 :
  wellFormed objs1 →
  wellFormed objs2 →
  ∃ peers1 peers2,
    onUpdateCalls (newEffects (updatePeers e) (setStore objs1 w)) = [peers1] ∧
    onUpdateCalls (newEffects (updatePeers e) (setStore objs2 w)) = [peers2] ∧
    onUpdateCalls (newEffects (updatePeers e) (setStore (objs1 ++ objs2) w))
      = [peers1 ++ peers2] ∧
    length peers1 = countAddresses objs1 ∧
    length peers2 = countAddresses objs2.
Proof.
  intros H1 H2. exists (peerList (conf e) objs1), (peerList (conf e) objs2).
  rewrite !updatePeers_calls; simpl; try done; [|by apply Forall_app].
  split; [done|]. split; [done|]. split; [|by rewrite !length_peerList].
  unfold peerList. by rewrite bind_app.
Qed.

Lemma peer_lists_concatenate_witness :
  ∃ peers1 peers2,
    onUpdateCalls (newEffects (updatePeers poolB)
                     (setStore [ObjEndpoints epA; ObjEndpoints epB] (world0 []))) = [peers1] ∧
    onUpdateCalls (newEffects (updatePeers poolB)
                     (setStore [ObjEndpoints epB] (world0 []))) = [peers2] ∧
    onUpdateCalls (newEffects (updatePeers poolB)
                     (setStore ([ObjEndpoints epA; ObjEndpoints epB] ++ [ObjEndpoints epB])
                        (world0 [])))
      = [peers1 ++ peers2] ∧
    length peers1 = countAddresses [ObjEndpoints epA; ObjEndpoints epB] ∧
    length peers2 = countAddresses [ObjEndpoints epB].
Proof.
  apply (peer_lists_concatenate poolB (world0 [])
           [ObjEndpoints epA; ObjEndpoints epB] [ObjEndpoints epB]).
  - repeat constructor.
  - repeat constructor.
Defined.

(** * Further properties of the metrics collector *)

(** ** The name of a method's metrics *)

Lemma LastIndexSlash_lastSlash k i found :
  LastIndexSlash k i found =
  match lastSlash k with
  | Some j => i + Z.of_nat j
  | None => found
  end.
Proof.
  revert i found. induction k as [|c k IH]; intros i found; simpl; [done|].
  rewrite IH. destruct (lastSlash k) as [j|]; [lia|].
  case_bool_decide; lia.
Qed.

Lemma methodName_lastSlash k :
  methodName k =
  match lastSlash k with
  | Some j => sliceFrom (S j) k
  | None => k
  end.
Proof.
  unfold methodName. rewrite LastIndexSlash_lastSlash.
  destruct (lastSlash k) as [j|]; [|done].
  by replace (Z.to_nat (0 + Z.of_nat j + 1)) with (S j) by lia.
Qed.

Lemma lastSlash_None k : lastSlash k = None ↔ hasSlash k = false.
Proof.
  induction k as [|c k IH]; simpl; [done|].
  destruct (lastSlash k) as [j|].
  - split; [done|]. intros [_ H]%orb_false_elim. by apply IH in H.
  - destruct IH as [IH _]. rewrite IH by done. by case_bool_decide.
Qed.

Lemma lastSlash_app p m :
  hasSlash m = false → lastSlash (p +:+ "/" +:+ m) = Some (String.length p).
Proof.
  intros Hm%lastSlash_None. induction p as [|a p IH].
  - change ("" +:+ "/" +:+ m) with (String "/" m). cbn [lastSlash].
    by rewrite Hm.
  - change (String a p +:+ "/" +:+ m) with (String a (p +:+ "/" +:+ m)).
    cbn [lastSlash String.length]. by rewrite IH.
Qed.

Lemma sliceFrom_app p m : sliceFrom (S (String.length p)) (p +:+ "/" +:+ m) = m.
Proof.
  induction p as [|a p IH].
  - change ("" +:+ "/" +:+ m) with (String "/" m). by destruct m.
  - change (String a p +:+ "/" +:+ m) with (String a (p +:+ "/" +:+ m)).
    cbn [sliceFrom String.length]. apply IH.
Qed.

Lemma hasSlash_sliceFrom k j :
  lastSlash k = Some j → hasSlash (sliceFrom (S j) k) = false.
Proof.
  revert j. induction k as [|c k IH]; intros j; simpl; [done|].
  destruct (lastSlash k) as [j'|] eqn:Hk.
  - intros [= <-]. by apply IH.
  - case_bool_decide; [|done]. intros [= <-]. apply lastSlash_None in Hk.
    by destruct k.
Qed.

(** X8: the metric name of a method is what follows the last slash of its
    full name: a name without slash is kept whole, the part after the
    last slash is kept whatever precedes it (so two services with a
    method of the same name share their metrics), a trailing slash gives
    the empty name, and the result never has a slash. *)
Theorem methodName_after_last_slash :
  (∀ k, hasSlash k = false → methodName k = k) ∧
  (∀ p m, hasSlash m = false → methodName (p +:+ "/" +:+ m) = m) ∧
  (∀ p q m, hasSlash m = false →
            methodName (p +:+ "/" +:+ m) = methodName (q +:+ "/" +:+ m)) ∧
  (∀ k, hasSlash (methodName k) = false).
Proof.
  assert (Hlast : ∀ p m, hasSlash m = false → methodName (p +:+ "/" +:+ m) = m).
  { intros p m Hm. rewrite methodName_lastSlash, lastSlash_app by done.
    apply sliceFrom_app. }
  split; [|split; [done|split]].
  - intros k Hk%lastSlash_None. by rewrite methodName_lastSlash, Hk.
  - intros p q m Hm. by rewrite !Hlast.
  - intros k. rewrite methodName_lastSlash.
    destruct (lastSlash k) as [j|] eqn:Hk.
    + by apply hasSlash_sliceFrom.
    + by apply lastSlash_None.
Qed.

(** ** The loop over any sequence of events *)

Lemma loopBody_entriesCounted st ev :
  entriesCounted (methods st) → entriesCounted (methods (loopBody st ev).1).
Proof.
  intros Hinv. destruct ev as [stat|cs|]; simpl; [| |done].
  - destruct (methods st !! Method stat) eqn:Hm; simpl; [done|].
    intros k item. destruct (decide (Method stat = k)) as [<-|Hne].
    + rewrite lookup_insert_eq. by intros [= <-].
    + rewrite lookup_insert_ne by done. apply Hinv.
  - intros k item. by rewrite lookup_empty.
Qed.

Lemma Until_entriesCounted evs st :
  entriesCounted (methods st) → entriesCounted (methods (Until evs st)).
Proof.
  revert st. induction evs as [|ev evs IH]; intros st Hinv; [done|].
  simpl. pose proof (loopBody_entriesCounted st ev Hinv) as Hstep.
  destruct (loopBody st ev) as [st' []]; [by apply IH|done].
Qed.

(** X9: an invariant of the loop.  Whatever events it has received since
    [Start], every entry of the aggregation map sits under the method it
    names and has the call count 1; so at any tick the three calls made
    for an entry are the gauge of its duration, the total 1 and its
    failed count. *)
Theorem Start_entries_counted evs :
  entriesCounted (methods (Start evs)) ∧
  (∀ kv, kv ∈ map_to_list (methods (Start evs)) →
         emitMethod kv =
         [ Gauge ("api." +:+ methodName (Method kv.2) +:+ ".duration") (Duration kv.2);
           Inc ("api." +:+ methodName (Method kv.2) +:+ ".total") 1;
           Inc ("api." +:+ methodName (Method kv.2) +:+ ".failed") (Failed kv.2) ]).
Proof.
  assert (Hinv : entriesCounted (methods (Start evs))).
  { apply Until_entriesCounted. intros k item. simpl. by rewrite lookup_empty. }
  split; [done|]. intros [k item] Hkv%elem_of_map_to_list.
  destruct (Hinv k item Hkv) as [<- Hcalled]. unfold emitMethod. simpl.
  by rewrite Hcalled.
Qed.

(** X10: closing [done] stops the loop at once.  The client is closed,
    the events that follow are not looked at, and the stats received
    since the last tick are never sent. *)
Theorem Until_done_stops evs1 evs2 st :
  Forall (λ ev, ev ≠ Done) evs1 →
  Until (evs1 ++ Done :: evs2) st =
    {| methods := methods (Until evs1 st);
       sent := sent (Until evs1 st) ++ [ClientClose] |} ∧
  (∀ stats, evs1 = RecvStat <$> stats →
            sent (Until (evs1 ++ Done :: evs2) st) = sent st ++ [ClientClose]).
Proof.
  intros Hnd. rewrite Until_app by done. split; [done|].
  intros stats ->. simpl. by rewrite Until_stats.
Qed.

Lemma Until_done_witness :
  Until ([RecvStat statA1; Tick None; RecvStat statB1] ++ Done :: [RecvStat statA2; Tick None])
        {| methods := ∅; sent := [] |} =
    {| methods := methods (Until [RecvStat statA1; Tick None; RecvStat statB1]
                             {| methods := ∅; sent := [] |});
       sent := sent (Until [RecvStat statA1; Tick None; RecvStat statB1]
                       {| methods := ∅; sent := [] |}) ++ [ClientClose] |} ∧
  (∀ stats, [RecvStat statA1; Tick None; RecvStat statB1] = RecvStat <$> stats →
            sent (Until ([RecvStat statA1; Tick None; RecvStat statB1]
                         ++ Done :: [RecvStat statA2; Tick None])
                    {| methods := ∅; sent := [] |})
            = sent {| methods := ∅; sent := [] |} ++ [ClientClose]).
Proof.
  apply (Until_done_stops [RecvStat statA1; Tick None; RecvStat statB1]
           [RecvStat statA2; Tick None] {| methods := ∅; sent := [] |}).
  repeat constructor; discriminate.
Defined.

Lemma Until_sent_prefix evs m out :
  Until evs {| methods := m; sent := out |} =
  {| methods := methods (Until evs {| methods := m; sent := [] |});
     sent := out ++ sent (Until evs {| methods := m; sent := [] |}) |}.
Proof.
  revert m out. induction evs as [|ev evs IH]; intros m out.
  - simpl. by rewrite app_nil_r.
  - destruct ev as [stat|cs|]; simpl.
    + destruct (m !! Method stat); simpl; apply IH.
    + rewrite IH. rewrite (IH ∅ (_ ++ _)). simpl. by rewrite <- !app_assoc.
    + done.
Qed.

(** X11: intervals are independent.  After a tick the loop goes on as if
    it had just been started: what it sends from then on, and the map it
    holds, depend on the later events only. *)
Theorem Until_tick_restarts evs1 cacheStats evs2 st :
  Forall (λ ev, ev ≠ Done) evs1 →
  sent (Until (evs1 ++ Tick cacheStats :: evs2) st) =
    sent (Until (evs1 ++ [Tick cacheStats]) st) ++ sent (Start evs2) ∧
  methods (Until (evs1 ++ Tick cacheStats :: evs2) st) = methods (Start evs2).
Proof.
  intros Hnd. rewrite !Until_app by done. simpl.
  rewrite Until_sent_prefix. simpl. done.
Qed.

Lemma Until_tick_witness :
  sent (Until ([RecvStat statA1; RecvStat statA2] ++ Tick None :: [RecvStat statB1; Tick None])
          {| methods := ∅; sent := [] |}) =
    sent (Until ([RecvStat statA1; RecvStat statA2] ++ [Tick None])
            {| methods := ∅; sent := [] |})
    ++ sent (Start [RecvStat statB1; Tick None]) ∧
  methods (Until ([RecvStat statA1; RecvStat statA2] ++ Tick None :: [RecvStat statB1; Tick None])
             {| methods := ∅; sent := [] |})
    = methods (Start [RecvStat statB1; Tick None]).
Proof.
  apply (Until_tick_restarts [RecvStat statA1; RecvStat statA2] None
           [RecvStat statB1; Tick None] {| methods := ∅; sent := [] |}).
  repeat constructor; discriminate.
Defined.

Lemma dom_aggregate (m : gmap string RequestStats) stat :
  dom (aggregate m stat) = dom m ∪ {[Method stat]}.
Proof.
  apply set_eq. intros k. rewrite elem_of_union, !elem_of_dom, elem_of_singleton.
  rewrite aggregate_lookup. destruct (m !! k) as [item|] eqn:Hk.
  - split; [by left|]. intros _. by exists item.
  - case_decide as Hd.
    + split; [by right|]. intros _. by eexists.
    + split; [by intros [? [=]]|]. intros [[? [=]]| ->]. done.
Qed.

Lemma dom_foldl_aggregate stats (m : gmap string RequestStats) :
  dom (foldl aggregate m stats) = dom m ∪ list_to_set (Method <$> stats).
Proof.
  revert m. induction stats as [|stat stats IH]; intros m.
  - simpl. by rewrite (right_id_L ∅ (∪)).
  - rewrite fmap_cons. cbn [foldl list_to_set]. rewrite IH, dom_aggregate.
    by rewrite (assoc_L (∪)).
Qed.

Lemma length_emitMethod (l : list (string * RequestStats)) :
  length (l ≫= emitMethod) = (3 * length l)%nat.
Proof.
  induction l as [|kv l IH]; [done|].
  rewrite bind_cons, length_app, IH. simpl. lia.
Qed.

(** X12: how much a tick sends.  From an empty map, the tick that ends
    an interval makes three calls for every distinct method among the
    stats received, however many stats there were for it, and three more
    when a cache is registered. *)
Theorem tick_sends_three_per_method stats cacheStats out :
  length (sent (Until ((RecvStat <$> stats) ++ [Tick cacheStats])
                  {| methods := ∅; sent := out |})) =
  (length out
   + 3 * size (list_to_set (Method <$> stats) : gset string)
   + (if cacheStats is Some _ then 3 else 0))%nat.
Proof.
  rewrite Until_app by (apply Forall_fmap, Forall_forall; done).
  rewrite Until_stats. simpl. rewrite !length_app, length_emitMethod.
  rewrite length_map_to_list, <- size_dom, dom_foldl_aggregate, dom_empty_L.
  rewrite (left_id_L ∅ (∪)). destruct cacheStats; simpl; lia.
Qed.

(** ** From an RPC to its metrics *)

(** X13: [HandleRPC] and the request channel.  Only an End event of a
    call whose context carries stats is sent: it gets the elapsed time,
    [Failed] is set to 1 on an error and otherwise left as it was, and it
    is queued behind the stats already waiting.  [NewStatsdMetrics] does
    not make the channel: before [Start] such a send blocks, as it does
    once 10000 stats are waiting. *)
Theorem HandleRPC_sends_End_only sd rs s :
  ((rs = None ∨ ∀ elapsed err, s ≠ RPCEnd elapsed err) →
   HandleRPC sd rs s = (sd, Ret tt)) ∧
  (∀ r elapsed err,
      rs = Some r → s = RPCEnd elapsed err →
      let stat := {| Method := Method r; Duration := elapsed;
                     Failed := if err is Some _ then 1 else Failed r;
                     Called := Called r |} in
      HandleRPC sd rs s =
      match reqChan sd with
      | None => (sd, Blocked)
      | Some buf =>
          if decide (Z.of_nat (length buf) < 10000)
          then ({| reqChan := Some (buf ++ [stat]) |}, Ret tt)
          else (sd, Blocked)
      end ∧
      HandleRPC NewStatsdMetrics rs s = (NewStatsdMetrics, Blocked) ∧
      HandleRPC (makeReqChan NewStatsdMetrics) rs s = ({| reqChan := Some [stat] |}, Ret tt)).
Proof.
  split.
  - intros [->|Hs]; [done|]. destruct rs as [r|]; [|done].
    destruct s; try done. by destruct (Hs elapsed err).
  - intros r elapsed err -> ->. simpl. unfold send, reqChanCap.
    destruct err; simpl; done.
Qed.

(** X14: one call from tag to metrics.  A call tagged by [TagRPC] with
    its full method name and ended after [elapsed], alone in its
    interval on a started collector, gives at the tick the gauge
    [api.<name>.duration] with [elapsed], [api.<name>.total] with 1 and
    [api.<name>.failed] with 1 if the call ended in an error and 0
    otherwise, [<name>] being what follows the last slash. *)
Theorem tagged_rpc_metrics name elapsed err cacheStats :
  let stat := {| Method := name; Duration := elapsed;
                 Failed := if err is Some _ then 1 else 0; Called := 0 |} in
  HandleRPC (makeReqChan NewStatsdMetrics) (Some (TagRPC name)) (RPCEnd elapsed err)
    = ({| reqChan := Some [stat] |}, Ret tt) ∧
  sent (Start [RecvStat stat; Tick cacheStats]) =
    [ Gauge ("api." +:+ methodName name +:+ ".duration") elapsed;
      Inc ("api." +:+ methodName name +:+ ".total") 1;
      Inc ("api." +:+ methodName name +:+ ".failed") (if err is Some _ then 1 else 0) ]
    ++ emitCache cacheStats.
Proof.
  split.
  - unfold HandleRPC, TagRPC, send. simpl. by destruct err.
  - unfold Start. simpl. rewrite lookup_empty. simpl.
    rewrite insert_empty, map_to_list_singleton. by destruct err.
Qed.
